(** * Print-Folder-Structure: [export_folder_structure.py]

    A shallow embedding of the directory walk [generate_tree] and of the
    command line driver [main], with the properties of the rendered tree.

    Modelling conventions.
    - A Python [str] is a [string] holding its UTF-8 bytes.  The order of
      [String.compare] on UTF-8 bytes is the code point order Python uses
      to compare strings.
    - The file system is a snapshot: a tree of [entry] values.  The order of
      the [children] of a directory is the order in which [iterdir()]
      enumerates them.  Symbolic links are followed by [is_dir()] and
      [is_file()], so an entry is classified by what it resolves to.
    - [print] is modelled by the list of strings handed to it, one element
      per call (every call ends its text with a newline).
    - [str.lower] is the Unicode lowercasing of the Python runtime; it is a
      parameter ([lower]) of the development.  [ascii_lower] is its
      restriction to ASCII names and is used on concrete inputs.
    - The tree does not change during a run and is finite: links form no
      cycle, and the nesting stays below the recursion limit of the
      interpreter.  Of the errors of the operating system, the one the
      source handles is modelled: [PermissionError] from [iterdir()].
    - The arguments are those [argparse] returns; [start_path] is the text
      of [Path(args.start_path)]. *)

From Equations Require Import Equations.
From Stdlib Require Import String Ascii.
From stdpp Require Import gmap strings list sorting.

Local Open Scope string_scope.
Local Open Scope list_scope.

(** ** The file system snapshot *)

Inductive entry :=
| File (name : string)
    (** [is_file()] holds *)
| Special (name : string)
    (** neither [is_dir()] nor [is_file()]: broken link, socket, device *)
| Dir (name : string) (readable : bool) (children : list entry).
    (** [is_dir()] holds; [iterdir()] raises [PermissionError] unless
        [readable] *)

Definition name (item : entry) : string :=
  match item with File n | Special n | Dir n _ _ => n end.

Definition is_dir (item : entry) : bool :=
  match item with Dir _ _ _ => true | _ => false end.

Definition is_file (item : entry) : bool :=
  match item with File _ => true | _ => false end.

Fixpoint entry_size (item : entry) : nat :=
  match item with
  | Dir _ _ children => S (list_sum (List.map entry_size children))
  | _ => 1
  end.

(** ** Configuration for ignored items *)

Definition DEFAULT_IGNORE_DIRS : gset string :=
  {[ "__pycache__"; ".git"; ".vscode"; "node_modules"; "venv"; ".venv";
     ".idea" ]}.

Definition DEFAULT_IGNORE_FILES : gset string :=
  {[ ".DS_Store"; ".gitignore" ]}.

(** ** Comparison of sort keys

    The key of [items.sort] is the tuple [(x.is_file(), x.name.lower())].
    Python compares tuples lexicographically, [False < True], and strings by
    code point. *)

Definition bool_lt (a b : bool) : bool := negb a && b.

Definition tuple_lt (k1 k2 : bool * string) : bool :=
  if Bool.eqb k1.1 k2.1 then String.ltb k1.2 k2.2 else bool_lt k1.1 k2.1.

(** [list.sort] is stable and compares with [<] only.  The stable sorted
    rearrangement of a list is unique, so it is modelled by a stable
    insertion sort: an element is put in front of the first later element
    that is not smaller than it. *)

Section Sort.
Context {A K : Type} (key : A → K) (lt : K → K → bool).

Fixpoint sort_insert (x : A) (l : list A) : list A :=
  match l with
  | [] => [x]
  | y :: l' =>
      if lt (key y) (key x) then y :: sort_insert x l' else x :: y :: l'
  end.

Fixpoint sort_by (l : list A) : list A :=
  match l with
  | [] => []
  | x :: l' => sort_insert x (sort_by l')
  end.
End Sort.

(** ** ASCII lowercasing, for concrete inputs *)

Definition ascii_lower_char (c : ascii) : ascii :=
  let n := nat_of_ascii c in
  if (65 <=? n)%nat && (n <=? 90)%nat then ascii_of_nat (n + 32) else c.

Fixpoint ascii_lower (s : string) : string :=
  match s with
  | EmptyString => EmptyString
  | String c s' => String (ascii_lower_char c) (ascii_lower s')
  end.

(** ** [generate_tree] *)

Definition space : string := "    ".
Definition branch : string := "├── ".
Definition last_branch : string := "└── ".

Section Walk.
(** [str.lower] *)
Variable lower : string → string.

Definition sort_key (x : entry) : bool * string :=
  (is_file x, lower (name x)).

(** The filter of lines 62-67. *)
Definition keep (ignore_dirs ignore_files : gset string) (item : entry)
  : bool :=
  (is_dir item && bool_decide (name item ∉ ignore_dirs))
  || (is_file item && bool_decide (name item ∉ ignore_files)).

(** Lines 61-69: the filtered and sorted [items]. *)
Definition listed (ignore_dirs ignore_files : gset string)
    (children : list entry) : list entry :=
  sort_by sort_key tuple_lt
    (List.filter (keep ignore_dirs ignore_files) children).

(** The loop of lines 72-82 over [enumerate(items)], from index [i], with
    [n = len(items)].  [rec] is the recursive call of line 80. *)
Fixpoint for_items (rec : entry → string → bool → list string)
    (prefix : string) (n i : nat) (items : list entry) : list string :=
  match items with
  | [] => []
  | item :: rest =>
      let is_current_last := Nat.eqb i (n - 1) in
      let connector := if is_current_last then last_branch else branch in
      (if is_dir item then
         (prefix +:+ connector +:+ "📂 " +:+ name item +:+ "/")
         :: (let new_prefix :=
               prefix +:+ (if is_current_last then space else "│   ") in
             rec item new_prefix is_current_last)
       else
         [prefix +:+ connector +:+ "📄 " +:+ name item])
      ++ for_items rec prefix n (S i) rest
  end.

(** The same loop with a recursive call that is only available on the
    members of [items]; it carries the termination argument of
    [generate_tree]. *)
Fixpoint for_items_in (prefix : string) (n i : nat) (items : list entry)
  : (∀ item, In item items → string → bool → list string) → list string :=
  match items with
  | [] => λ _, []
  | item :: rest => λ rec,
      let is_current_last := Nat.eqb i (n - 1) in
      let connector := if is_current_last then last_branch else branch in
      (if is_dir item then
         (prefix +:+ connector +:+ "📂 " +:+ name item +:+ "/")
         :: (let new_prefix :=
               prefix +:+ (if is_current_last then space else "│   ") in
             rec item (or_introl eq_refl) new_prefix is_current_last)
       else
         [prefix +:+ connector +:+ "📄 " +:+ name item])
      ++ for_items_in prefix n (S i) rest (λ x H, rec x (or_intror H))
  end.

Lemma entry_size_In (item : entry) (l : list entry) :
  In item l → (entry_size item ≤ list_sum (List.map entry_size l))%nat.
Proof.
  induction l as [|y l IH]; simpl; [tauto|].
  intros [->|H]; [lia|]. specialize (IH H). lia.
Qed.

Lemma sort_insert_In {A K} (key : A → K) (lt : K → K → bool) x y l :
  In y (sort_insert key lt x l) → y = x ∨ In y l.
Proof.
  induction l as [|z l IH]; simpl.
  - intros [<-|[]]. by left.
  - destruct (lt (key z) (key x)); simpl.
    + intros [->|H]; [by right; left|].
      destruct (IH H) as [->|H']; [by left|by right; right].
    + intros [->|[->|H]]; [by left|by right; left|by right; right].
Qed.

Lemma sort_by_In {A K} (key : A → K) (lt : K → K → bool) y l :
  In y (sort_by key lt l) → In y l.
Proof.
  induction l as [|x l IH]; simpl; [done|].
  intros H. apply sort_insert_In in H as [->|H]; [by left|right; auto].
Qed.

Lemma listed_In ignore_dirs ignore_files children item :
  In item (listed ignore_dirs ignore_files children) → In item children.
Proof.
  unfold listed. intros H. apply sort_by_In in H.
  by apply filter_In in H as [H _].
Qed.

(** [generate_tree dir_path ignore_dirs ignore_files prefix is_last]: the
    lines printed by the call.  [dir_path] is the directory object the
    path names.  On a path that is not a directory [iterdir()] raises an
    exception that is not caught and the call prints nothing; the walk
    never makes such a call (line 76 tests [is_dir()], and [main] tests the
    root). *)
Equations? generate_tree (dir_path : entry)
    (ignore_dirs ignore_files : gset string) (prefix : string)
    (is_last : bool) : list string by wf (entry_size dir_path) lt :=
generate_tree (Dir _ false _) _ _ prefix _ :=
  [prefix +:+ branch +:+ "⚠️  [Permission Denied]"];
generate_tree (Dir _ true children) ignore_dirs ignore_files prefix _ :=
  let items := listed ignore_dirs ignore_files children in
  for_items_in prefix (length items) 0 items
    (λ item _ new_prefix is_current_last,
       generate_tree item ignore_dirs ignore_files new_prefix
         is_current_last);
generate_tree _ _ _ _ _ := [].
Proof.
  simpl. apply Nat.lt_succ_r, entry_size_In.
  eapply listed_In. eassumption.
Qed.



(** ** The walk, with the arguments of every [print] call kept

    [walk] is [generate_tree] with the same control flow; where the source
    prints a line, it records which entry the line is for and where the
    entry sits: [Visited prefix is_current_last parent item] for the prints
    of lines 77 and 82 ([parent] is the path of the listed directory,
    relative to the root of the walk), and [Denied prefix dir] for the print
    of line 58.  [render] formats a record the way the source does, and
    [generate_tree_walk] below shows that rendering the walk gives
    [generate_tree]. *)

Inductive visit :=
| Visited (prefix : string) (is_current_last : bool) (parent : list string)
    (item : entry)
| Denied (prefix : string) (dir : list string).

Definition render (v : visit) : string :=
  match v with
  | Visited prefix is_current_last _ item =>
      let connector := if is_current_last then last_branch else branch in
      if is_dir item then prefix +:+ connector +:+ "📂 " +:+ name item +:+ "/"
      else prefix +:+ connector +:+ "📄 " +:+ name item
  | Denied prefix _ => prefix +:+ branch +:+ "⚠️  [Permission Denied]"
  end.

Fixpoint walk_items (rec : list string → entry → string → bool → list visit)
    (path : list string) (prefix : string) (n i : nat) (items : list entry)
  : list visit :=
  match items with
  | [] => []
  | item :: rest =>
      let is_current_last := Nat.eqb i (n - 1) in
      Visited prefix is_current_last path item
      :: (if is_dir item then
            let new_prefix :=
              prefix +:+ (if is_current_last then space else "│   ") in
            rec (path ++ [name item]) item new_prefix is_current_last
          else [])
      ++ walk_items rec path prefix n (S i) rest
  end.

Fixpoint walk_items_in (path : list string) (prefix : string) (n i : nat)
    (items : list entry)
  : (∀ item, In item items → list string → string → bool → list visit)
    → list visit :=
  match items with
  | [] => λ _, []
  | item :: rest => λ rec,
      let is_current_last := Nat.eqb i (n - 1) in
      Visited prefix is_current_last path item
      :: (if is_dir item then
            let new_prefix :=
              prefix +:+ (if is_current_last then space else "│   ") in
            rec item (or_introl eq_refl) (path ++ [name item]) new_prefix
              is_current_last
          else [])
      ++ walk_items_in path prefix n (S i) rest (λ x H, rec x (or_intror H))
  end.

Equations? walk (path : list string) (dir_path : entry)
    (ignore_dirs ignore_files : gset string) (prefix : string)
    (is_last : bool) : list visit by wf (entry_size dir_path) lt :=
walk path (Dir _ false _) _ _ prefix _ := [Denied prefix path];
walk path (Dir _ true children) ignore_dirs ignore_files prefix _ :=
  let items := listed ignore_dirs ignore_files children in
  walk_items_in path prefix (length items) 0 items
    (λ item _ item_path new_prefix is_current_last,
       walk item_path item ignore_dirs ignore_files new_prefix
         is_current_last);
walk _ _ _ _ _ _ := [].
Proof.
  simpl. apply Nat.lt_succ_r, entry_size_In.
  eapply listed_In. eassumption.
Qed.

(** The entries a walk visits in the directory [path], in the order of the
    visits. *)
Definition child_items (path : list string) (vs : list visit) : list entry :=
  omap (λ v, match v with
             | Visited _ _ parent item =>
                 if decide (parent = path) then Some item else None
             | Denied _ _ => None
             end) vs.

Definition is_marker (v : visit) : bool :=
  match v with Denied _ _ => true | Visited _ _ _ _ => false end.

(** ** Counting on the tree

    [entries_reached d]: the entries below the directory [d] that pass the
    filter and lie in directories the walk lists.  [denied_reached d]: the
    directories, [d] included, that the walk tries to list and cannot. *)

Fixpoint entries_reached (ignore_dirs ignore_files : gset string)
    (d : entry) : nat :=
  match d with
  | Dir _ true children =>
      list_sum
        (List.map
           (λ c, if keep ignore_dirs ignore_files c
                 then S (entries_reached ignore_dirs ignore_files c) else 0)
           children)
  | _ => 0
  end.

Fixpoint denied_reached (ignore_dirs ignore_files : gset string)
    (d : entry) : nat :=
  match d with
  | Dir _ false _ => 1
  | Dir _ true children =>
      list_sum
        (List.map
           (λ c, if keep ignore_dirs ignore_files c
                 then denied_reached ignore_dirs ignore_files c else 0)
           children)
  | _ => 0
  end.

(** The tree with the contents of every unreadable directory removed. *)
Fixpoint forget_unreadable (e : entry) : entry :=
  match e with
  | Dir n true children => Dir n true (List.map forget_unreadable children)
  | Dir n false _ => Dir n false []
  | _ => e
  end.

(** ** Enumeration order

    [reordered e1 e2]: [e2] is the tree [e1] with the entries of its
    directories enumerated in another order. *)
Fixpoint reordered (e1 e2 : entry) : Prop :=
  match e1, e2 with
  | File n1, File n2 => n1 = n2
  | Special n1, Special n2 => n1 = n2
  | Dir n1 r1 c1, Dir n2 r2 c2 =>
      n1 = n2 ∧ r1 = r2
      ∧ ∃ c, c ≡ₚ c2
             ∧ (fix pairwise (l1 l : list entry) : Prop :=
                  match l1, l with
                  | [], [] => True
                  | x :: l1', y :: l' => reordered x y ∧ pairwise l1' l'
                  | _, _ => False
                  end) c1 c
  | _, _ => False
  end.

(** [distinct_keys e]: in every directory the walk of [e] lists, no two
    entries that pass the filter have the same sort key. *)
Fixpoint distinct_keys (ignore_dirs ignore_files : gset string) (e : entry)
  : Prop :=
  match e with
  | Dir _ true children =>
      NoDup (sort_key <$> List.filter (keep ignore_dirs ignore_files) children)
      ∧ (fix all (l : list entry) : Prop :=
           match l with
           | [] => True
           | x :: l' =>
               (keep ignore_dirs ignore_files x = true →
                distinct_keys ignore_dirs ignore_files x)
               ∧ all l'
           end) children
  | _ => True
  end.

(** ** Trees without what the filter rejects, and well-formed names *)

(** The tree in which every listed directory holds only the entries that
    pass the filter. *)
Fixpoint without_ignored (ignore_dirs ignore_files : gset string)
    (e : entry) : entry :=
  match e with
  | Dir n true children =>
      Dir n true
        (List.filter (keep ignore_dirs ignore_files)
           (List.map (without_ignored ignore_dirs ignore_files) children))
  | _ => e
  end.

(** [distinct_names e]: in every directory the walk of [e] lists, the
    entries that pass the filter have pairwise distinct names, as the
    entries of a directory have. *)
Fixpoint distinct_names (ignore_dirs ignore_files : gset string) (e : entry)
  : Prop :=
  match e with
  | Dir _ true children =>
      NoDup (name <$> List.filter (keep ignore_dirs ignore_files) children)
      ∧ (fix all (l : list entry) : Prop :=
           match l with
           | [] => True
           | x :: l' =>
               (keep ignore_dirs ignore_files x = true →
                distinct_names ignore_dirs ignore_files x)
               ∧ all l'
           end) children
  | _ => True
  end.

(** The text of a sequence of indentation tokens. *)
Definition indent (tokens : list string) : string :=
  foldr String.append "" tokens.

(** Where a visit is recorded: the listed directory for an entry line, the
    unreadable directory for a marker; and the prefix of its line. *)
Definition visit_dir (v : visit) : list string :=
  match v with Visited _ _ parent _ => parent | Denied _ dir => dir end.

Definition visit_prefix (v : visit) : string :=
  match v with Visited prefix _ _ _ => prefix | Denied prefix _ => prefix end.

(** The paths of the entries a walk visits, relative to its root. *)
Definition visited_paths (vs : list visit) : list (list string) :=
  omap (λ v, match v with
             | Visited _ _ parent item => Some (parent ++ [name item])
             | Denied _ _ => None
             end) vs.

(** ** [main] *)

Record args := {
  start_path : string;
  output_file : string;
  ignore_dir : list string;
  ignore_file : list string
}.

(** What [main] asks of the file system: what a path resolves to ([None]:
    nothing), and whether [open(path, "w")] succeeds.  The snapshot is the
    tree as the walk sees it, that is once the output file is open. *)
Record filesystem := {
  lookup : string → option entry;
  can_open : string → bool
}.

(** The lines on the terminal, the files written with their contents, and
    whether the run ended in an exception that nothing catches. *)
Record run := {
  stdout : list string;
  written : list (string * string);
  raised : bool
}.

Definition newline : string := String (ascii_of_nat 10) EmptyString.

(** The text a sequence of [print] calls leaves in a file. *)
Definition file_text (prints : list string) : string :=
  foldr (λ p text, p +:+ newline +:+ text) "" prints.

Definition final_ignore_dirs (a : args) : gset string :=
  DEFAULT_IGNORE_DIRS ∪ list_to_set (ignore_dir a).

Definition final_ignore_files (a : args) : gset string :=
  DEFAULT_IGNORE_FILES ∪ list_to_set (ignore_file a).

(** The lines 151-154 print into the output file: the root line, whose text
    ends in a newline of its own, then the tree body. *)
Definition report (a : args) (start : entry) : list string :=
  ("📁 " +:+ name start +:+ "/" +:+ newline)
  :: generate_tree start (final_ignore_dirs a) (final_ignore_files a) "" true.

Definition main (fs : filesystem) (a : args) : run :=
  match lookup fs (start_path a) with
  | Some (Dir _ _ _ as start) =>
      if can_open fs (output_file a) then
        {| stdout :=
             [ "✅ Folder structure successfully exported to '"
               +:+ output_file a +:+ "'" ];
           written := [ (output_file a, file_text (report a start)) ];
           raised := false |}
      else
        {| stdout := []; written := []; raised := true |}
  | _ =>
      {| stdout :=
           [ "❌ Error: The path '" +:+ start_path a
             +:+ "' is not a valid directory." ];
         written := [];
         raised := false |}
  end.

End Walk.

(** ** Concrete inputs *)

(** The command line with the start path alone. *)
Definition default_args (path : string) : args :=
  {| start_path := path; output_file := "folder_structure.txt";
     ignore_dir := []; ignore_file := [] |}.

(** A file system in which the start path [path] resolves to [root], no
    other path resolves, and every file can be opened for writing. *)
Definition fs_with (path : string) (root : entry) : filesystem :=
  {| lookup := λ p, if String.eqb p path then Some root else None;
     can_open := λ _, true |}.

Definition sample : entry :=
  Dir "proj" true
    [ File "README.md"; Dir ".git" true [File "HEAD"];
      Dir "src" true [File "main.py"] ].

Definition mixed_case : entry :=
  Dir "proj" true [ File "b.txt"; Dir "A" true []; File "a.txt";
                    Dir "B" true [] ].

Definition locked_root : entry := Dir "vault" false [File "key"].

Definition locked_subdir : entry :=
  Dir "proj" true [ File "notes.txt"; Dir "vault" false [File "key"] ].

Definition one_locked_subdir : entry :=
  Dir "proj" true [ Dir "vault" false [File "key"] ].

(** One directory, enumerated in two orders. *)
Definition makefiles_1 : entry := Dir "proj" true [File "Makefile"; File "makefile"].
Definition makefiles_2 : entry := Dir "proj" true [File "makefile"; File "Makefile"].

(** * Properties *)

(** ** The order of the sort keys *)

Lemma ascii_compare_refl (c : ascii) : Ascii.compare c c = Eq.
Proof. unfold Ascii.compare. apply N.compare_refl. Qed.

Lemma ascii_compare_lt_trans (a b c : ascii) :
  Ascii.compare a b = Lt → Ascii.compare b c = Lt → Ascii.compare a c = Lt.
Proof.
  unfold Ascii.compare. rewrite !N.compare_lt_iff. apply N.lt_trans.
Qed.

Lemma string_compare_refl (s : string) : String.compare s s = Eq.
Proof.
  induction s as [|c s IH]; simpl; [done|]. by rewrite ascii_compare_refl.
Qed.

Lemma string_compare_lt_trans (a b c : string) :
  String.compare a b = Lt → String.compare b c = Lt → String.compare a c = Lt.
Proof.
  revert b c. induction a as [|x a IH]; intros [|y b] [|z c]; simpl; try done.
  destruct (Ascii.compare x y) eqn:Hxy; try done;
    destruct (Ascii.compare y z) eqn:Hyz; try done; intros H1 H2.
  - apply Ascii.compare_eq_iff in Hxy, Hyz. subst.
    rewrite ascii_compare_refl. eauto.
  - apply Ascii.compare_eq_iff in Hxy. subst. by rewrite Hyz.
  - apply Ascii.compare_eq_iff in Hyz. subst. by rewrite Hxy.
  - by rewrite (ascii_compare_lt_trans x y z).
Qed.

Lemma string_ltb_irrefl (s : string) : String.ltb s s = false.
Proof. unfold String.ltb. by rewrite string_compare_refl. Qed.

Lemma string_ltb_trans (a b c : string) :
  String.ltb a b = true → String.ltb b c = true → String.ltb a c = true.
Proof.
  unfold String.ltb.
  destruct (String.compare a b) eqn:H1; try done.
  destruct (String.compare b c) eqn:H2; try done.
  by rewrite (string_compare_lt_trans a b c).
Qed.

Lemma string_ltb_total (a b : string) :
  String.ltb a b = false → String.ltb b a = false → a = b.
Proof.
  unfold String.ltb. rewrite (String.compare_antisym b a).
  destruct (String.compare a b) eqn:H; simpl; try done.
  intros _ _. by apply String.compare_eq_iff.
Qed.

Lemma string_leb_ltb (a b : string) : String.leb a b = negb (String.ltb b a).
Proof.
  unfold String.leb, String.ltb. rewrite (String.compare_antisym a b).
  by destruct (String.compare b a).
Qed.

Lemma tuple_lt_irrefl (k : bool * string) : tuple_lt k k = false.
Proof.
  unfold tuple_lt. rewrite Bool.eqb_reflx. apply string_ltb_irrefl.
Qed.

Lemma tuple_lt_trans (a b c : bool * string) :
  tuple_lt a b = true → tuple_lt b c = true → tuple_lt a c = true.
Proof.
  destruct a as [[] sa], b as [[] sb], c as [[] sc];
    unfold tuple_lt; simpl; try done; apply string_ltb_trans.
Qed.

Lemma tuple_lt_total (a b : bool * string) :
  tuple_lt a b = false → tuple_lt b a = false → a = b.
Proof.
  destruct a as [[] sa], b as [[] sb]; unfold tuple_lt; simpl; try done;
    intros H1 H2; f_equal; by apply string_ltb_total.
Qed.

Lemma tuple_lt_asym (a b : bool * string) :
  tuple_lt a b = true → tuple_lt b a = false.
Proof.
  intros H. destruct (tuple_lt b a) eqn:H'; [|done].
  by rewrite <- (tuple_lt_irrefl a), (tuple_lt_trans a b a).
Qed.

(** [≤] on keys is "not greater": it is transitive because [<] is a strict
    total order. *)
Lemma tuple_lt_neg_trans (a b c : bool * string) :
  tuple_lt b a = false → tuple_lt c b = false → tuple_lt c a = false.
Proof.
  intros Hab Hbc. destruct (tuple_lt c a) eqn:Hca; [|done].
  destruct (tuple_lt a b) eqn:H1.
  - by rewrite (tuple_lt_trans c a b) in Hbc.
  - rewrite (tuple_lt_total a b) in Hca; [congruence|done..].
Qed.

(** ** The stable sort *)

Section SortFacts.
Context {A K : Type} (key : A → K) (lt : K → K → bool).
Hypothesis lt_irrefl : ∀ k, lt k k = false.
Hypothesis lt_asym : ∀ a b, lt a b = true → lt b a = false.
Hypothesis lt_neg_trans :
  ∀ a b c, lt b a = false → lt c b = false → lt c a = false.

(** [x] may stand before [y]: [y]'s key is not smaller. *)
Definition in_order (x y : A) : Prop := lt (key y) (key x) = false.

Lemma sort_insert_perm (x : A) (l : list A) :
  sort_insert key lt x l ≡ₚ x :: l.
Proof using Type.
  induction l as [|y l IH]; simpl; [done|].
  destruct (lt (key y) (key x)); [|done].
  rewrite IH. apply Permutation_swap.
Qed.

Lemma sort_by_perm (l : list A) : sort_by key lt l ≡ₚ l.
Proof using Type.
  induction l as [|x l IH]; simpl; [done|].
  by rewrite sort_insert_perm, IH.
Qed.

Lemma sort_insert_sorted (x : A) (l : list A) :
  StronglySorted in_order l → StronglySorted in_order (sort_insert key lt x l).
Proof using lt_asym lt_neg_trans.
  induction 1 as [|y l Hl IH Hy]; simpl.
  - repeat constructor.
  - destruct (lt (key y) (key x)) eqn:Hyx.
    + constructor; [done|].
      rewrite sort_insert_perm. constructor; [|done].
      by apply lt_asym.
    + constructor; [by constructor|].
      constructor; [done|].
      eapply Forall_impl; [exact Hy|].
      intros z Hz. by apply (lt_neg_trans _ (key y)).
Qed.

Lemma sort_by_sorted (l : list A) : StronglySorted in_order (sort_by key lt l).
Proof using lt_asym lt_neg_trans.
  induction l as [|x l IH]; simpl; [constructor|].
  by apply sort_insert_sorted.
Qed.

(** Stability: the entries that have a given property of the key keep their
    relative order, provided the property separates them from what they are
    moved over (in particular: the entries of one key). *)
Lemma sort_insert_stable (P : A → bool) (x : A) (l : list A) :
  (∀ y, P x = true → P y = true → lt (key y) (key x) = false) →
  List.filter P (sort_insert key lt x l) = List.filter P (x :: l).
Proof using Type.
  intros HP. induction l as [|y l IH]; [done|].
  simpl in *. destruct (lt (key y) (key x)) eqn:Hyx; [|done].
  simpl. rewrite IH.
  destruct (P x) eqn:Hx, (P y) eqn:Hy; try done.
  by rewrite HP in Hyx.
Qed.

Lemma sort_by_stable (P : A → bool) (l : list A) :
  (∀ x y, P x = true → P y = true → lt (key y) (key x) = false) →
  List.filter P (sort_by key lt l) = List.filter P l.
Proof using Type.
  intros HP. induction l as [|x l IH]; [done|].
  cbn [sort_by]. rewrite sort_insert_stable by eauto.
  simpl. by rewrite IH.
Qed.

End SortFacts.

(** ** Induction on the tree *)

Fixpoint entry_tree_ind (P : entry → Prop)
    (HF : ∀ n, P (File n)) (HS : ∀ n, P (Special n))
    (HD : ∀ n r children, Forall P children → P (Dir n r children))
    (e : entry) {struct e} : P e :=
  match e with
  | File n => HF n
  | Special n => HS n
  | Dir n r children =>
      HD n r children
        ((fix all (l : list entry) : Forall P l :=
            match l with
            | [] => List.Forall_nil P
            | x :: l' =>
                List.Forall_cons P x l' (entry_tree_ind P HF HS HD x) (all l')
            end) children)
  end.

(** ** The loop and the recursion equations *)

Section WalkFacts.
Variable lower : string → string.
Implicit Types (ignore_dirs ignore_files : gset string).
Implicit Types (item dir_path : entry) (items children : list entry).

Lemma for_items_in_eq rec prefix n i items :
  for_items_in prefix n i items (λ item _, rec item)
  = for_items rec prefix n i items.
Proof.
  revert i. induction items as [|item rest IH]; intros i; simpl; [done|].
  by rewrite IH.
Qed.

Lemma walk_items_in_eq rec path prefix n i items :
  walk_items_in path prefix n i items (λ item _ p, rec p item)
  = walk_items rec path prefix n i items.
Proof.
  revert i. induction items as [|item rest IH]; intros i; simpl; [done|].
  by rewrite IH.
Qed.

(** Lines 61-82 for a directory that can be listed. *)
Lemma generate_tree_readable nm children ignore_dirs ignore_files prefix b :
  generate_tree lower (Dir nm true children) ignore_dirs ignore_files prefix b
  = let items := listed lower ignore_dirs ignore_files children in
    for_items
      (λ item new_prefix is_current_last,
         generate_tree lower item ignore_dirs ignore_files new_prefix
           is_current_last)
      prefix (length items) 0 items.
Proof. simp generate_tree. simpl. apply for_items_in_eq. Qed.

(** Lines 57-59 for a directory that cannot. *)
Lemma generate_tree_denied nm children ignore_dirs ignore_files prefix b :
  generate_tree lower (Dir nm false children) ignore_dirs ignore_files prefix b
  = [prefix +:+ branch +:+ "⚠️  [Permission Denied]"].
Proof. by simp generate_tree. Qed.

Lemma walk_readable path nm children ignore_dirs ignore_files prefix b :
  walk lower path (Dir nm true children) ignore_dirs ignore_files prefix b
  = let items := listed lower ignore_dirs ignore_files children in
    walk_items
      (λ item_path item new_prefix is_current_last,
         walk lower item_path item ignore_dirs ignore_files new_prefix
           is_current_last)
      path prefix (length items) 0 items.
Proof. simp walk. simpl. apply walk_items_in_eq. Qed.

Lemma walk_denied path nm children ignore_dirs ignore_files prefix b :
  walk lower path (Dir nm false children) ignore_dirs ignore_files prefix b
  = [Denied prefix path].
Proof. by simp walk. Qed.

Lemma for_items_app rec prefix n i l1 l2 :
  for_items rec prefix n i (l1 ++ l2)
  = for_items rec prefix n i l1 ++ for_items rec prefix n (i + length l1) l2.
Proof.
  revert i. induction l1 as [|x l1 IH]; intros i; simpl.
  - by rewrite Nat.add_0_r.
  - rewrite IH, <- app_assoc. by replace (S i + length l1) with (i + S (length l1)) by lia.
Qed.

Lemma walk_items_app rec path prefix n i l1 l2 :
  walk_items rec path prefix n i (l1 ++ l2)
  = walk_items rec path prefix n i l1
    ++ walk_items rec path prefix n (i + length l1) l2.
Proof.
  revert i. induction l1 as [|x l1 IH]; intros i; simpl.
  - by rewrite Nat.add_0_r.
  - rewrite IH, <- app_assoc. by replace (S i + length l1) with (i + S (length l1)) by lia.
Qed.

(** The index test of line 73 holds exactly at the last item. *)
Lemma is_current_last_spec {A} (l1 l2 : list A) (x : A) :
  Nat.eqb (length l1) (length (l1 ++ x :: l2) - 1) = bool_decide (l2 = []).
Proof.
  rewrite length_app. simpl. case_bool_decide as H.
  - subst. simpl. apply Nat.eqb_eq. lia.
  - apply Nat.eqb_neq. destruct l2; [done|]. simpl. lia.
Qed.

(** The lines of one item of the loop, among those of its siblings. *)
Lemma for_items_split rec prefix l1 item l2 :
  let n := length (l1 ++ item :: l2) in
  let is_current_last := bool_decide (l2 = []) in
  let connector := if is_current_last then last_branch else branch in
  for_items rec prefix n 0 (l1 ++ item :: l2)
  = for_items rec prefix n 0 l1
    ++ (if is_dir item then
          (prefix +:+ connector +:+ "📂 " +:+ name item +:+ "/")
          :: rec item
               (prefix +:+ (if is_current_last then space else "│   "))
               is_current_last
        else [prefix +:+ connector +:+ "📄 " +:+ name item])
    ++ for_items rec prefix n (S (length l1)) l2.
Proof.
  intros n is_current_last connector.
  rewrite for_items_app. f_equal. simpl.
  subst n connector is_current_last. by rewrite is_current_last_spec.
Qed.

Lemma walk_items_split rec path prefix l1 item l2 :
  let n := length (l1 ++ item :: l2) in
  let is_current_last := bool_decide (l2 = []) in
  walk_items rec path prefix n 0 (l1 ++ item :: l2)
  = walk_items rec path prefix n 0 l1
    ++ Visited prefix is_current_last path item
       :: (if is_dir item then
             rec (path ++ [name item]) item
               (prefix +:+ (if is_current_last then space else "│   "))
               is_current_last
           else [])
    ++ walk_items rec path prefix n (S (length l1)) l2.
Proof.
  intros n is_current_last.
  rewrite walk_items_app. f_equal. simpl.
  subst n is_current_last. by rewrite is_current_last_spec.
Qed.

(** Rendering the recorded walk gives the printed lines. *)
Lemma render_walk_items recw recg path prefix n i items :
  (∀ item p pre b, item ∈ items → render <$> recw p item pre b = recg item pre b) →
  render <$> walk_items recw path prefix n i items
  = for_items recg prefix n i items.
Proof.
  revert i. induction items as [|item rest IH]; intros i Hrec; [done|].
  simpl. rewrite fmap_app, IH by (intros; apply Hrec; by right).
  destruct (is_dir item); simpl; [|done].
  do 2 f_equal. apply Hrec. by left.
Qed.

Lemma generate_tree_walk path dir_path ignore_dirs ignore_files prefix b :
  render <$> walk lower path dir_path ignore_dirs ignore_files prefix b
  = generate_tree lower dir_path ignore_dirs ignore_files prefix b.
Proof.
  revert path prefix b.
  induction dir_path as [n|n|n r children IH] using entry_tree_ind;
    intros path prefix b.
  - by simp walk generate_tree.
  - by simp walk generate_tree.
  - destruct r.
    + rewrite walk_readable, generate_tree_readable. simpl.
      apply render_walk_items. intros item p pre b' Hin.
      rewrite Forall_forall in IH. apply IH.
      apply list_elem_of_In. apply list_elem_of_In in Hin.
      by eapply listed_In.
    + by rewrite walk_denied, generate_tree_denied.
Qed.

(** ** The filter and the listing *)

Lemma keep_spec ignore_dirs ignore_files item :
  keep ignore_dirs ignore_files item = true
  ↔ (is_dir item = true ∧ name item ∉ ignore_dirs)
    ∨ (is_file item = true ∧ name item ∉ ignore_files).
Proof.
  unfold keep.
  rewrite orb_true_iff, !andb_true_iff, !bool_decide_eq_true. tauto.
Qed.

Lemma keep_dir_or_file ignore_dirs ignore_files item :
  keep ignore_dirs ignore_files item = true → is_dir item || is_file item = true.
Proof. rewrite keep_spec. intros [[-> _]|[-> _]]; [done|by destruct (is_dir item)]. Qed.

Lemma listed_perm ignore_dirs ignore_files children :
  listed lower ignore_dirs ignore_files children
  ≡ₚ List.filter (keep ignore_dirs ignore_files) children.
Proof. apply sort_by_perm. Qed.

Lemma listed_sorted ignore_dirs ignore_files children :
  StronglySorted (in_order (sort_key lower) tuple_lt)
    (listed lower ignore_dirs ignore_files children).
Proof.
  apply sort_by_sorted; [apply tuple_lt_asym|apply tuple_lt_neg_trans].
Qed.

Lemma elem_of_listed ignore_dirs ignore_files children item :
  item ∈ listed lower ignore_dirs ignore_files children
  ↔ item ∈ children ∧ keep ignore_dirs ignore_files item = true.
Proof.
  rewrite listed_perm, !list_elem_of_In. apply filter_In.
Qed.

Lemma listed_app_skip ignore_dirs ignore_files l1 item l2 :
  keep ignore_dirs ignore_files item = false →
  listed lower ignore_dirs ignore_files (l1 ++ item :: l2)
  = listed lower ignore_dirs ignore_files (l1 ++ l2).
Proof.
  intros H. unfold listed. rewrite !List.filter_app. simpl. by rewrite H.
Qed.

(** ** What the walk visits *)

(** A visit made by a walk of the directory at [path]: it lies at [path] or
    below it, in directories whose names are not ignored, and its entry
    passed the filter. *)
Definition visit_ok ignore_dirs ignore_files (path : list string) (v : visit)
  : Prop :=
  match v with
  | Visited _ _ parent item =>
      (∃ rel, parent = path ++ rel ∧ Forall (λ d, d ∉ ignore_dirs) rel)
      ∧ keep ignore_dirs ignore_files item = true
  | Denied _ dir =>
      ∃ rel, dir = path ++ rel ∧ Forall (λ d, d ∉ ignore_dirs) rel
  end.

Lemma walk_items_Forall (Q : visit → Prop) rec path prefix n i items :
  (∀ item b, item ∈ items → Q (Visited prefix b path item)) →
  (∀ item pre b, item ∈ items → is_dir item = true →
     Forall Q (rec (path ++ [name item]) item pre b)) →
  Forall Q (walk_items rec path prefix n i items).
Proof.
  revert i. induction items as [|item rest IH]; intros i Hv Hrec; simpl.
  - constructor.
  - constructor; [apply Hv; by left|].
    apply Forall_app. split.
    + destruct (is_dir item) eqn:Hd; [|constructor].
      apply Hrec; [by left|done].
    + apply IH; intros; [apply Hv|apply Hrec]; try done; by right.
Qed.

Lemma visit_ok_below ignore_dirs ignore_files path d v :
  d ∉ ignore_dirs →
  visit_ok ignore_dirs ignore_files (path ++ [d]) v →
  visit_ok ignore_dirs ignore_files path v.
Proof.
  intros Hd. destruct v as [pre b parent item|pre dir]; simpl.
  - intros [(rel & -> & Hrel) Hk]. split; [|done].
    exists (d :: rel). rewrite <- app_assoc. split; [done|by constructor].
  - intros (rel & -> & Hrel).
    exists (d :: rel). rewrite <- app_assoc. split; [done|by constructor].
Qed.

Lemma walk_visits dir_path ignore_dirs ignore_files path prefix b :
  Forall (visit_ok ignore_dirs ignore_files path)
    (walk lower path dir_path ignore_dirs ignore_files prefix b).
Proof.
  revert path prefix b.
  induction dir_path as [n|n|n r children IH] using entry_tree_ind;
    intros path prefix b.
  - simp walk. constructor.
  - simp walk. constructor.
  - destruct r.
    + rewrite walk_readable. simpl. apply walk_items_Forall.
      * intros item b' [_ Hk]%elem_of_listed. simpl. split; [|done].
        exists []. by rewrite app_nil_r.
      * intros item pre b' [Hin Hk]%elem_of_listed Hd.
        rewrite Forall_forall in IH. specialize (IH item Hin).
        eapply Forall_impl; [apply IH|]. intros v.
        apply visit_ok_below.
        apply keep_spec in Hk as [[_ Hn]|[Hf _]]; [done|].
        destruct item; done.
    + rewrite walk_denied. constructor; [|constructor].
      exists []. by rewrite app_nil_r.
Qed.

Lemma child_items_app path vs1 vs2 :
  child_items path (vs1 ++ vs2) = child_items path vs1 ++ child_items path vs2.
Proof. apply omap_app. Qed.

Lemma child_items_below ignore_dirs ignore_files path d vs :
  Forall (visit_ok ignore_dirs ignore_files (path ++ [d])) vs →
  child_items path vs = [].
Proof.
  induction 1 as [|v vs Hv _ IH]; [done|].
  change (v :: vs) with ([v] ++ vs). rewrite child_items_app, IH, app_nil_r.
  destruct v as [pre b parent item|pre dir]; [|done].
  destruct Hv as [(rel & -> & _) _].
  unfold child_items. simpl. rewrite decide_False; [done|].
  intros H%(f_equal length). rewrite !length_app in H. simpl in H. lia.
Qed.

Lemma child_items_walk_items ignore_dirs ignore_files rec path prefix n i items :
  (∀ item pre b, item ∈ items → is_dir item = true →
     Forall (visit_ok ignore_dirs ignore_files (path ++ [name item]))
       (rec (path ++ [name item]) item pre b)) →
  child_items path (walk_items rec path prefix n i items) = items.
Proof.
  revert i. induction items as [|item rest IH]; intros i Hrec; [done|].
  cbn [walk_items].
  change (Visited ?a ?b ?c ?d :: ?l) with ([Visited a b c d] ++ l).
  rewrite !child_items_app, IH by (intros; apply Hrec; [by right|done]).
  unfold child_items at 1. simpl. rewrite decide_True by done. simpl.
  f_equal. destruct (is_dir item) eqn:Hd; [|done].
  rewrite (child_items_below ignore_dirs ignore_files _ (name item)); [done|].
  apply Hrec; [by left|done].
Qed.

(** The entries visited in a listed directory are its filtered, sorted
    items, in that order. *)
Lemma child_items_walk path nm children ignore_dirs ignore_files prefix b :
  child_items path
    (walk lower path (Dir nm true children) ignore_dirs ignore_files prefix b)
  = listed lower ignore_dirs ignore_files children.
Proof.
  rewrite walk_readable. simpl.
  apply (child_items_walk_items ignore_dirs ignore_files).
  intros. apply walk_visits.
Qed.

(** The walk of a kept directory is part of the walk of its parent. *)
Lemma walk_descends path nm children ignore_dirs ignore_files prefix b item :
  item ∈ children → keep ignore_dirs ignore_files item = true →
  is_dir item = true →
  ∃ new_prefix is_current_last,
    walk lower (path ++ [name item]) item ignore_dirs ignore_files new_prefix
      is_current_last
    ⊆ walk lower path (Dir nm true children) ignore_dirs ignore_files prefix b.
Proof.
  intros Hin Hk Hd.
  assert (item ∈ listed lower ignore_dirs ignore_files children) as Hl
    by by apply elem_of_listed.
  apply list_elem_of_split in Hl as (l1 & l2 & Hl).
  rewrite walk_readable. simpl. rewrite Hl, walk_items_split, Hd.
  eexists _, _. intros v Hv.
  apply elem_of_app. right. apply elem_of_cons. right.
  apply elem_of_app. by left.
Qed.

Lemma StronglySorted_lookup {A} (R : A → A → Prop) (l : list A) i j x y :
  StronglySorted R l → l !! i = Some x → l !! j = Some y → (i < j)%nat → R x y.
Proof.
  intros Hl. revert i j. induction Hl as [|z l Hl IH Hz]; intros i j Hi Hj Hij.
  - done.
  - destruct j as [|j]; [lia|]. simpl in Hj. destruct i as [|i].
    + simpl in Hi. injection Hi as ->.
      rewrite Forall_forall in Hz. apply Hz.
      by eapply list_elem_of_lookup_2.
    + simpl in Hi. apply (IH i j); [done..|lia].
Qed.

Lemma report_walk (a : args) (start : entry) :
  report lower a start
  = ("📁 " +:+ name start +:+ "/" +:+ newline)
    :: (render <$> walk lower [] start (final_ignore_dirs a)
                     (final_ignore_files a) "" true).
Proof. unfold report. by rewrite generate_tree_walk. Qed.

(** ** Filtering *)

(** C1.  The ignore sets are the built-in defaults together with the names
    given on the command line, so [.git] is always ignored.  In every
    directory the walk lists, the entries it visits are exactly the
    children that are directories with a name outside the ignored
    directory names, or files with a name outside the ignored file names;
    the walk of such a directory is part of the walk of its parent.  No
    visit of a walk lies in or below a directory with an ignored name, and
    no visited directory has one.  The printed lines are the visits of the
    walk, rendered. *)
Theorem filter_keeps_unignored (a : args) :
  let ignore_dirs := final_ignore_dirs a in
  let ignore_files := final_ignore_files a in
  (∀ x, x ∈ ignore_dirs ↔ x ∈ DEFAULT_IGNORE_DIRS ∨ x ∈ ignore_dir a)
  ∧ (∀ x, x ∈ ignore_files ↔ x ∈ DEFAULT_IGNORE_FILES ∨ x ∈ ignore_file a)
  ∧ ".git" ∈ ignore_dirs
  ∧ (∀ path nm children prefix b item,
       item ∈ child_items path
                (walk lower path (Dir nm true children) ignore_dirs
                   ignore_files prefix b)
       ↔ item ∈ children
         ∧ ((is_dir item = true ∧ name item ∉ ignore_dirs)
            ∨ (is_file item = true ∧ name item ∉ ignore_files)))
  ∧ (∀ path nm children prefix b item,
       item ∈ children → is_dir item = true → name item ∉ ignore_dirs →
       ∃ new_prefix is_current_last,
         walk lower (path ++ [name item]) item ignore_dirs ignore_files
           new_prefix is_current_last
         ⊆ walk lower path (Dir nm true children) ignore_dirs ignore_files
             prefix b)
  ∧ (∀ root prefix b v,
       v ∈ walk lower [] root ignore_dirs ignore_files prefix b →
       match v with
       | Visited _ _ parent item =>
           Forall (λ d, d ∉ ignore_dirs) parent
           ∧ (is_dir item = true → name item ∉ ignore_dirs)
           ∧ (is_file item = true → name item ∉ ignore_files)
       | Denied _ dir => Forall (λ d, d ∉ ignore_dirs) dir
       end)
  ∧ (∀ root prefix b,
       generate_tree lower root ignore_dirs ignore_files prefix b
       = render <$> walk lower [] root ignore_dirs ignore_files prefix b).
Proof.
  intros ignore_dirs ignore_files. split_and!.
  - unfold ignore_dirs, final_ignore_dirs. set_solver.
  - unfold ignore_files, final_ignore_files. set_solver.
  - unfold ignore_dirs, final_ignore_dirs, DEFAULT_IGNORE_DIRS. set_solver.
  - intros path nm children prefix b item.
    by rewrite child_items_walk, elem_of_listed, keep_spec.
  - intros path nm children prefix b item Hin Hd Hn.
    apply walk_descends; [done| |done]. apply keep_spec. by left.
  - intros root prefix b v Hv.
    pose proof (walk_visits root ignore_dirs ignore_files [] prefix b) as H.
    rewrite Forall_forall in H. specialize (H v Hv).
    destruct v as [pre b' parent item|pre dir]; simpl in H.
    + destruct H as [(rel & -> & Hrel) Hk]. simpl.
      apply keep_spec in Hk. split_and!; [done|..]; intros Hi.
      * destruct Hk as [[_ Hn]|[Hf _]]; [done|]. by destruct item.
      * destruct Hk as [[Hd _]|[_ Hn]]; [|done]. by destruct item.
    + by destruct H as (rel & -> & Hrel).
  - intros. by rewrite generate_tree_walk.
Qed.

(** ** Sibling order *)

(** C2.  The entries visited in a listed directory are a rearrangement of
    the children that pass the filter, in ascending order of the key
    [(is_file, lower name)]: of two visited entries the later one never has
    the smaller key, so no file comes before a directory, and among the
    directories and among the files a later entry never has the smaller
    lowercased name.  The printed lines are the visits of the walk,
    rendered. *)
Theorem siblings_in_key_order path nm children ignore_dirs ignore_files
    prefix b :
  let emitted :=
    child_items path
      (walk lower path (Dir nm true children) ignore_dirs ignore_files
         prefix b) in
  emitted ≡ₚ List.filter (keep ignore_dirs ignore_files) children
  ∧ StronglySorted
      (λ x y, tuple_lt (sort_key lower y) (sort_key lower x) = false) emitted
  ∧ (∀ i j x y,
       emitted !! i = Some x → emitted !! j = Some y → (i < j)%nat →
       (is_dir y = true → is_dir x = true ∧ is_file x = false)
       ∧ (is_file x = true → is_file y = true ∧ is_dir y = false)
       ∧ (is_file x = is_file y →
          String.leb (lower (name x)) (lower (name y)) = true))
  ∧ generate_tree lower (Dir nm true children) ignore_dirs ignore_files
      prefix b
    = render <$> walk lower path (Dir nm true children) ignore_dirs
                   ignore_files prefix b.
Proof.
  intros emitted. unfold emitted. rewrite child_items_walk.
  split; [apply listed_perm|]. split; [apply listed_sorted|].
  split; [|by rewrite generate_tree_walk].
  intros i j x y Hx Hy Hij.
  pose proof (StronglySorted_lookup _ _ i j x y
                (listed_sorted ignore_dirs ignore_files children) Hx Hy Hij)
    as Hord.
  assert (keep ignore_dirs ignore_files x = true) as Hkx.
  { eapply elem_of_listed, list_elem_of_lookup_2, Hx. }
  assert (keep ignore_dirs ignore_files y = true) as Hky.
  { eapply elem_of_listed, list_elem_of_lookup_2, Hy. }
  apply keep_dir_or_file in Hkx, Hky.
  unfold in_order, tuple_lt, sort_key in Hord. simpl in Hord.
  rewrite string_leb_ltb.
  destruct x as [nx|nx|nx rx cx], y as [ny|ny|ny ry cy];
    simpl in *; try done; by rewrite Hord.
Qed.

(** ** Entries that are neither directories nor files *)

(** C9.  An entry that is neither a directory nor a regular file fails the
    filter whatever the ignore sets hold, no walk visits one, and the
    printed lines are those of the listing without it. *)
Theorem special_entries_left_out ignore_dirs ignore_files :
  (∀ n, keep ignore_dirs ignore_files (Special n) = false)
  ∧ (∀ path dir_path prefix b v,
       v ∈ walk lower path dir_path ignore_dirs ignore_files prefix b →
       match v with
       | Visited _ _ _ item => ∀ n, item ≠ Special n
       | Denied _ _ => True
       end)
  ∧ (∀ nm l1 n l2 prefix b,
       generate_tree lower (Dir nm true (l1 ++ Special n :: l2)) ignore_dirs
         ignore_files prefix b
       = generate_tree lower (Dir nm true (l1 ++ l2)) ignore_dirs
           ignore_files prefix b).
Proof.
  split; [done|]. split.
  - intros path dir_path prefix b v Hv.
    pose proof (walk_visits dir_path ignore_dirs ignore_files path prefix b)
      as H.
    rewrite Forall_forall in H. specialize (H v Hv).
    destruct v as [pre b' parent item|pre dir]; [|done].
    destruct H as [_ Hk]. intros n ->. done.
  - intros nm l1 n l2 prefix b.
    rewrite !generate_tree_readable. simpl.
    by rewrite (listed_app_skip _ _ l1 (Special n) l2).
Qed.

(** ** Counting lines *)

(** A visit counts [a] when it is an entry line and [d] when it is a
    marker. *)
Definition weight (a d : nat) (v : visit) : nat :=
  if is_marker v then d else a.

Lemma list_sum_cons (x : nat) (l : list nat) :
  list_sum (x :: l) = x + list_sum l.
Proof. done. Qed.

Lemma walk_items_weight a d h rec path prefix n i items :
  (∀ item p pre b, item ∈ items → is_dir item = true →
     list_sum (weight a d <$> rec p item pre b) = h item) →
  list_sum (weight a d <$> walk_items rec path prefix n i items)
  = list_sum ((λ item, a + if is_dir item then h item else 0) <$> items).
Proof.
  revert i. induction items as [|item rest IH]; intros i Hrec; [done|].
  cbn [walk_items]. rewrite !fmap_cons, fmap_app.
  rewrite !list_sum_cons, list_sum_app, IH by (intros; apply Hrec; [by right|done]).
  unfold weight at 1. simpl.
  destruct (is_dir item) eqn:Hd; simpl; [|lia].
  rewrite Hrec; [lia|by left|done].
Qed.

Lemma list_sum_filter {A} (P : A → bool) (g : A → nat) (l : list A) :
  list_sum (g <$> List.filter P l)
  = list_sum ((λ x, if P x then g x else 0) <$> l).
Proof.
  induction l as [|x l IH]; [done|]. cbn [List.filter].
  rewrite fmap_cons, list_sum_cons, <- IH.
  destruct (P x); [by rewrite fmap_cons, list_sum_cons|done].
Qed.

Lemma list_sum_fmap_ext {A} (f g : A → nat) (l : list A) :
  (∀ x, x ∈ l → f x = g x) → list_sum (f <$> l) = list_sum (g <$> l).
Proof.
  induction l as [|x l IH]; intros H; [done|].
  rewrite !fmap_cons, !list_sum_cons, H by (by left).
  rewrite IH; [done|]. intros; apply H. by right.
Qed.

Lemma list_sum_fmap_linear {A} (a d : nat) (f g : A → nat) (P : A → bool)
    (l : list A) :
  list_sum ((λ x, if P x then a + (a * f x + d * g x) else 0) <$> l)
  = a * list_sum ((λ x, if P x then S (f x) else 0) <$> l)
    + d * list_sum ((λ x, if P x then g x else 0) <$> l).
Proof.
  induction l as [|x l IH]; [simpl; lia|].
  rewrite !fmap_cons, !list_sum_cons, IH. destruct (P x); lia.
Qed.

Lemma walk_weight a d dir_path ignore_dirs ignore_files path prefix b :
  list_sum
    (weight a d <$> walk lower path dir_path ignore_dirs ignore_files prefix b)
  = a * entries_reached ignore_dirs ignore_files dir_path
    + d * denied_reached ignore_dirs ignore_files dir_path.
Proof.
  revert path prefix b.
  induction dir_path as [n|n|n r children IH] using entry_tree_ind;
    intros path prefix b.
  - simp walk. simpl. lia.
  - simp walk. simpl. lia.
  - destruct r; [|rewrite walk_denied; unfold weight; simpl; lia].
    rewrite walk_readable. cbn zeta.
    rewrite (walk_items_weight a d
               (λ item, a * entries_reached ignore_dirs ignore_files item
                        + d * denied_reached ignore_dirs ignore_files item)).
    2:{ intros item p pre b' [Hin _]%elem_of_listed _.
        rewrite Forall_forall in IH. by apply IH. }
    rewrite (list_sum_fmap_ext _
               (λ item, a + (a * entries_reached ignore_dirs ignore_files item
                             + d * denied_reached ignore_dirs ignore_files item))).
    2:{ intros item _. destruct item; simpl; lia. }
    rewrite listed_perm, list_sum_filter.
    cbn [entries_reached denied_reached].
    apply list_sum_fmap_linear.
Qed.

Lemma list_sum_ones {A} (l : list A) : list_sum ((λ _, 1) <$> l) = length l.
Proof.
  induction l as [|x l IH]; [done|].
  rewrite fmap_cons, list_sum_cons, IH. done.
Qed.

(** C7, as the code has it.  The tree body has one line for every entry
    that passes the filter in a directory the walk lists, and one more line,
    the marker, for every directory the walk cannot list: an unreadable
    directory below the root accounts for two lines, its own and the
    marker. *)
Theorem tree_body_line_count dir_path ignore_dirs ignore_files prefix b :
  length (generate_tree lower dir_path ignore_dirs ignore_files prefix b)
  = entries_reached ignore_dirs ignore_files dir_path
    + denied_reached ignore_dirs ignore_files dir_path.
Proof.
  rewrite <- (generate_tree_walk []), length_fmap, <- list_sum_ones.
  rewrite (list_sum_fmap_ext _ (weight 1 1)).
  - rewrite walk_weight. lia.
  - intros v _. by destruct v.
Qed.

Lemma count_markers (vs : list visit) :
  length (List.filter is_marker vs) = list_sum (weight 0 1 <$> vs).
Proof.
  induction vs as [|v vs IH]; [done|].
  rewrite fmap_cons, list_sum_cons, <- IH. by destruct v.
Qed.

(** ** Unreadable directories *)

Lemma sort_insert_map {A B K} (key : B → K) (key' : A → K) lt (f : A → B) x l :
  (∀ x, key (f x) = key' x) →
  sort_insert key lt (f x) (List.map f l) = List.map f (sort_insert key' lt x l).
Proof.
  intros Hk. induction l as [|y l IH]; [done|]. simpl.
  rewrite !Hk, IH. by destruct (lt (key' y) (key' x)).
Qed.

Lemma sort_by_map {A B K} (key : B → K) (key' : A → K) lt (f : A → B) l :
  (∀ x, key (f x) = key' x) →
  sort_by key lt (List.map f l) = List.map f (sort_by key' lt l).
Proof.
  intros Hk. induction l as [|x l IH]; [done|]. simpl.
  by rewrite IH, (sort_insert_map key key').
Qed.

Lemma filter_map_commute {A B} (P : B → bool) (P' : A → bool) (f : A → B) l :
  (∀ x, P (f x) = P' x) →
  List.filter P (List.map f l) = List.map f (List.filter P' l).
Proof.
  intros HP. induction l as [|x l IH]; [done|]. simpl.
  rewrite HP, IH. by destruct (P' x).
Qed.

Lemma for_items_map rec rec' (f : entry → entry) prefix n i items :
  (∀ x, is_dir (f x) = is_dir x) → (∀ x, name (f x) = name x) →
  (∀ x p b, x ∈ items → is_dir x = true → rec (f x) p b = rec' x p b) →
  for_items rec prefix n i (List.map f items) = for_items rec' prefix n i items.
Proof.
  intros Hd Hn. revert i.
  induction items as [|item rest IH]; intros i Hrec; [done|].
  simpl. rewrite Hd, Hn, IH by (intros; apply Hrec; [by right|done]).
  f_equal. destruct (is_dir item) eqn:E; [|done].
  f_equal. apply Hrec; [by left|done].
Qed.

Lemma forget_unreadable_is_dir e : is_dir (forget_unreadable e) = is_dir e.
Proof. by destruct e as [| |? []]. Qed.

Lemma forget_unreadable_name e : name (forget_unreadable e) = name e.
Proof. by destruct e as [| |? []]. Qed.

Lemma forget_unreadable_is_file e : is_file (forget_unreadable e) = is_file e.
Proof. by destruct e as [| |? []]. Qed.

Lemma listed_forget_unreadable ignore_dirs ignore_files children :
  listed lower ignore_dirs ignore_files (List.map forget_unreadable children)
  = List.map forget_unreadable
      (listed lower ignore_dirs ignore_files children).
Proof.
  unfold listed.
  rewrite (filter_map_commute _ (keep ignore_dirs ignore_files)).
  - apply sort_by_map. intros x. unfold sort_key.
    by rewrite forget_unreadable_is_file, forget_unreadable_name.
  - intros x. unfold keep.
    by rewrite forget_unreadable_is_dir, forget_unreadable_is_file,
      forget_unreadable_name.
Qed.

(** What lies in an unreadable directory has no influence on the lines. *)
Lemma generate_tree_forget_unreadable dir_path ignore_dirs ignore_files
    prefix b :
  generate_tree lower (forget_unreadable dir_path) ignore_dirs ignore_files
    prefix b
  = generate_tree lower dir_path ignore_dirs ignore_files prefix b.
Proof.
  revert prefix b.
  induction dir_path as [n|n|n r children IH] using entry_tree_ind;
    intros prefix b; [done..|].
  destruct r; [|by rewrite !generate_tree_denied].
  cbn [forget_unreadable]. rewrite !generate_tree_readable. cbn zeta.
  rewrite listed_forget_unreadable, length_map.
  apply for_items_map;
    [apply forget_unreadable_is_dir|apply forget_unreadable_name|].
  intros x p b' [Hin _]%elem_of_listed _.
  rewrite Forall_forall in IH. by apply IH.
Qed.

(** Lines 76-80 at a directory that cannot be listed: its own line, then
    the marker, between the walks of its siblings. *)
Lemma walk_at_unreadable path pn children ignore_dirs ignore_files prefix b
    l1 dn c l2 :
  listed lower ignore_dirs ignore_files children = l1 ++ Dir dn false c :: l2 →
  let n := length (l1 ++ Dir dn false c :: l2) in
  let is_current_last := bool_decide (l2 = []) in
  let rec := λ item_path item new_prefix is_last,
    walk lower item_path item ignore_dirs ignore_files new_prefix is_last in
  walk lower path (Dir pn true children) ignore_dirs ignore_files prefix b
  = walk_items rec path prefix n 0 l1
    ++ [ Visited prefix is_current_last path (Dir dn false c);
         Denied (prefix +:+ (if is_current_last then space else "│   "))
           (path ++ [dn]) ]
    ++ walk_items rec path prefix n (S (length l1)) l2.
Proof.
  intros Hl n is_current_last rec.
  rewrite walk_readable. cbn zeta. rewrite Hl, walk_items_split.
  cbn [is_dir name]. by rewrite walk_denied.
Qed.

(** The lines of one item of a listed directory, among those of its
    siblings. *)
Lemma generate_tree_at nm children ignore_dirs ignore_files prefix b
    l1 item l2 :
  listed lower ignore_dirs ignore_files children = l1 ++ item :: l2 →
  let n := length (l1 ++ item :: l2) in
  let is_current_last := bool_decide (l2 = []) in
  let connector := if is_current_last then last_branch else branch in
  let rec := λ item new_prefix is_last,
    generate_tree lower item ignore_dirs ignore_files new_prefix is_last in
  generate_tree lower (Dir nm true children) ignore_dirs ignore_files prefix b
  = for_items rec prefix n 0 l1
    ++ (if is_dir item then
          (prefix +:+ connector +:+ "📂 " +:+ name item +:+ "/")
          :: rec item
               (prefix +:+ (if is_current_last then space else "│   "))
               is_current_last
        else [prefix +:+ connector +:+ "📄 " +:+ name item])
    ++ for_items rec prefix n (S (length l1)) l2.
Proof.
  intros Hl n is_current_last connector rec.
  rewrite generate_tree_readable. cbn zeta. rewrite Hl.
  apply for_items_split.
Qed.

(** ** Line format *)

(** C3.  For the item at any position of the filtered, sorted list of a
    directory: its line is the prefix, then the connector, which is the last
    connector exactly when no item follows, then the glyph of its kind and
    its name, with a trailing slash for a directory.  The lines of a
    directory's own walk follow its line, made with the prefix extended by
    four spaces when the directory is the last item and by the vertical bar
    and three spaces otherwise.  An item that is not a directory is a file
    and has this one line.  The lines of the items before and after stand
    around these. *)
Theorem entry_line_format nm children ignore_dirs ignore_files prefix b
    l1 item l2 :
  listed lower ignore_dirs ignore_files children = l1 ++ item :: l2 →
  let n := length (l1 ++ item :: l2) in
  let is_current_last := bool_decide (l2 = []) in
  let connector := if is_current_last then "└── " else "├── " in
  let extension := if is_current_last then "    " else "│   " in
  let rec := λ item new_prefix is_last,
    generate_tree lower item ignore_dirs ignore_files new_prefix is_last in
  generate_tree lower (Dir nm true children) ignore_dirs ignore_files prefix b
  = for_items rec prefix n 0 l1
    ++ (if is_dir item then
          (prefix +:+ connector +:+ "📂 " +:+ name item +:+ "/")
          :: generate_tree lower item ignore_dirs ignore_files
               (prefix +:+ extension) is_current_last
        else [prefix +:+ connector +:+ "📄 " +:+ name item])
    ++ for_items rec prefix n (S (length l1)) l2
  ∧ (is_dir item = false → is_file item = true).
Proof.
  intros Hl n is_current_last connector extension rec. split.
  - apply (generate_tree_at nm children ignore_dirs ignore_files prefix b
             l1 item l2 Hl).
  - assert (item ∈ listed lower ignore_dirs ignore_files children) as Hin.
    { rewrite Hl. apply elem_of_app. right. by left. }
    apply elem_of_listed in Hin as [_ Hk]. apply keep_dir_or_file in Hk.
    intros Hd. by rewrite Hd in Hk.
Qed.

(** C10.  The marker line is made with the branch connector whatever the
    position of the unreadable directory is.  For an unreadable directory
    among the items of its parent, the parent prints the directory's own
    line and then the marker, with the prefix of a child of that directory:
    two lines, also when no other line follows them. *)
Theorem denied_marker_line ignore_dirs ignore_files :
  (∀ nm c prefix is_last,
     generate_tree lower (Dir nm false c) ignore_dirs ignore_files prefix
       is_last
     = [prefix +:+ "├── ⚠️  [Permission Denied]"])
  ∧ (∀ nm children prefix b l1 dn c l2,
       listed lower ignore_dirs ignore_files children
       = l1 ++ Dir dn false c :: l2 →
       let n := length (l1 ++ Dir dn false c :: l2) in
       let is_current_last := bool_decide (l2 = []) in
       let connector := if is_current_last then "└── " else "├── " in
       let extension := if is_current_last then "    " else "│   " in
       let rec := λ item new_prefix is_last,
         generate_tree lower item ignore_dirs ignore_files new_prefix
           is_last in
       generate_tree lower (Dir nm true children) ignore_dirs ignore_files
         prefix b
       = for_items rec prefix n 0 l1
         ++ [ prefix +:+ connector +:+ "📂 " +:+ dn +:+ "/";
              (prefix +:+ extension) +:+ "├── ⚠️  [Permission Denied]" ]
         ++ for_items rec prefix n (S (length l1)) l2).
Proof.
  split.
  - intros. apply generate_tree_denied.
  - intros nm children prefix b l1 dn c l2 Hl. cbn zeta.
    rewrite (generate_tree_at nm children ignore_dirs ignore_files prefix b
               l1 (Dir dn false c) l2 Hl).
    cbn [is_dir name]. by rewrite generate_tree_denied.
Qed.

(** ** The run *)

(** C4.  When the start path names nothing, or something that is not a
    directory, the run prints the error message and returns: no file is
    opened or written and no exception is raised. *)
Theorem invalid_root_reports_error (fs : filesystem) (a : args) :
  (lookup fs (start_path a) = None
   ∨ ∃ e, lookup fs (start_path a) = Some e ∧ is_dir e = false) →
  main lower fs a
  = {| stdout :=
         [ "❌ Error: The path '" +:+ start_path a
           +:+ "' is not a valid directory." ];
       written := [];
       raised := false |}.
Proof.
  unfold main. intros [->|(e & -> & He)]; [done|]. by destruct e.
Qed.

(** C5, as the code has it.  A start path that names nothing, or something
    that is not a directory, is reported with the error message and nothing
    is written.  A start path that names a directory whose contents cannot
    be read is not an error: the output file is written with the root line,
    the blank line and the marker line, and the run reports success. *)
Theorem root_must_be_directory (fs : filesystem) (a : args) :
  ((lookup fs (start_path a) = None
    ∨ ∃ e, lookup fs (start_path a) = Some e ∧ is_dir e = false) →
   stdout (main lower fs a)
   = [ "❌ Error: The path '" +:+ start_path a
       +:+ "' is not a valid directory." ]
   ∧ written (main lower fs a) = [])
  ∧ (∀ nm c,
       lookup fs (start_path a) = Some (Dir nm false c) →
       can_open fs (output_file a) = true →
       main lower fs a
       = {| stdout :=
              [ "✅ Folder structure successfully exported to '"
                +:+ output_file a +:+ "'" ];
            written :=
              [ (output_file a,
                 file_text [ "📁 " +:+ nm +:+ "/" +:+ newline;
                             "├── ⚠️  [Permission Denied]" ]) ];
            raised := false |}).
Proof.
  split.
  - unfold main. intros [->|(e & -> & He)]; [done|]. by destruct e.
  - intros nm c Hl Ho. unfold main, report. rewrite Hl, Ho.
    by rewrite generate_tree_denied.
Qed.

(** C6.  When the start path is a directory and the output file can be
    opened, the run writes the report and ends with the confirmation
    message, whatever directories the walk fails to list.  The walk records
    one marker for every directory it reaches and cannot list.  The report
    is that of the tree in which every unreadable directory is empty: the
    walk does not go into one.  At an unreadable directory among the items
    of its parent, the walk visits the items before it, the directory, then
    records the marker, and goes on with the items after it. *)
Theorem unreadable_directory_is_local (fs : filesystem) (a : args)
    nm r children :
  lookup fs (start_path a) = Some (Dir nm r children) →
  can_open fs (output_file a) = true →
  let ignore_dirs := final_ignore_dirs a in
  let ignore_files := final_ignore_files a in
  let start := Dir nm r children in
  main lower fs a
  = {| stdout :=
         [ "✅ Folder structure successfully exported to '"
           +:+ output_file a +:+ "'" ];
       written := [ (output_file a, file_text (report lower a start)) ];
       raised := false |}
  ∧ length
      (List.filter is_marker
         (walk lower [] start ignore_dirs ignore_files "" true))
    = denied_reached ignore_dirs ignore_files start
  ∧ report lower a (forget_unreadable start) = report lower a start
  ∧ (∀ path pn siblings prefix b l1 dn c l2,
       listed lower ignore_dirs ignore_files siblings
       = l1 ++ Dir dn false c :: l2 →
       let n := length (l1 ++ Dir dn false c :: l2) in
       let is_current_last := bool_decide (l2 = []) in
       let rec := λ item_path item new_prefix is_last,
         walk lower item_path item ignore_dirs ignore_files new_prefix
           is_last in
       walk lower path (Dir pn true siblings) ignore_dirs ignore_files
         prefix b
       = walk_items rec path prefix n 0 l1
         ++ [ Visited prefix is_current_last path (Dir dn false c);
              Denied (prefix +:+ (if is_current_last then "    " else "│   "))
                (path ++ [dn]) ]
         ++ walk_items rec path prefix n (S (length l1)) l2).
Proof.
  intros Hl Ho ignore_dirs ignore_files start. split_and!.
  - unfold main. by rewrite Hl, Ho.
  - rewrite count_markers, walk_weight. lia.
  - unfold report.
    by rewrite generate_tree_forget_unreadable, forget_unreadable_name.
  - intros path pn siblings prefix b l1 dn c l2 Hs.
    apply (walk_at_unreadable path pn siblings ignore_dirs ignore_files
             prefix b l1 dn c l2 Hs).
Qed.

(** ** Independence of the enumeration order *)

Lemma filter_perm {A} (P : A → bool) (l l' : list A) :
  l ≡ₚ l' → List.filter P l ≡ₚ List.filter P l'.
Proof.
  induction 1 as [|x l l' _ IH|x y l|l1 l2 l3 _ IH1 _ IH2]; simpl.
  - done.
  - destruct (P x); by rewrite IH.
  - destruct (P x), (P y); try done. apply Permutation_swap.
  - by rewrite IH1.
Qed.

Section Related.
Context {A K : Type} (R : A → A → Prop) (key : A → K) (lt : K → K → bool)
  (P : A → bool).
Hypothesis R_key : ∀ x y, R x y → key x = key y.
Hypothesis R_P : ∀ x y, R x y → P x = P y.

Lemma Forall2_filter (l l' : list A) :
  Forall2 R l l' → Forall2 R (List.filter P l) (List.filter P l').
Proof using R_P.
  induction 1 as [|x y l l' Hxy _ IH]; simpl; [constructor|].
  rewrite <- (R_P x y Hxy). destruct (P x); [by constructor|done].
Qed.

Lemma Forall2_sort_insert x y (l l' : list A) :
  R x y → Forall2 R l l' →
  Forall2 R (sort_insert key lt x l) (sort_insert key lt y l').
Proof using R_key.
  intros Hxy. induction 1 as [|x' y' l l' Hxy' Hl IH]; simpl.
  - by repeat constructor.
  - rewrite <- (R_key x y Hxy), <- (R_key x' y' Hxy').
    destruct (lt (key x') (key x)); by repeat constructor.
Qed.

Lemma Forall2_sort_by (l l' : list A) :
  Forall2 R l l' → Forall2 R (sort_by key lt l) (sort_by key lt l').
Proof using R_key.
  induction 1 as [|x y l l' Hxy _ IH]; simpl; [constructor|].
  by apply Forall2_sort_insert.
Qed.

Lemma Forall2_key (l l' : list A) : Forall2 R l l' → key <$> l = key <$> l'.
Proof using R_key.
  induction 1 as [|x y l l' Hxy _ IH]; [done|].
  rewrite !fmap_cons, IH. f_equal. by apply R_key.
Qed.
End Related.

Lemma reordered_kind e1 e2 :
  reordered e1 e2 →
  name e1 = name e2 ∧ is_dir e1 = is_dir e2 ∧ is_file e1 = is_file e2.
Proof.
  destruct e1, e2; simpl; try done; try (by intros ->).
  by intros (-> & _).
Qed.

Lemma reordered_dir n r c1 e2 :
  reordered (Dir n r c1) e2 →
  ∃ c2 c, e2 = Dir n r c2 ∧ c ≡ₚ c2 ∧ Forall2 reordered c1 c.
Proof.
  destruct e2 as [|?|n2 r2 c2]; simpl; try done.
  intros (-> & -> & c & Hc & Hp). exists c2, c. split_and!; [done..|].
  clear Hc. revert c Hp.
  induction c1 as [|x c1 IH]; intros [|y c] Hp; try done.
  destruct Hp as [Hxy Hp]. constructor; [done|by apply IH].
Qed.

Lemma reordered_sort_key e1 e2 :
  reordered e1 e2 → sort_key lower e1 = sort_key lower e2.
Proof.
  intros (Hn & _ & Hf)%reordered_kind. unfold sort_key. by rewrite Hn, Hf.
Qed.

Lemma reordered_keep ignore_dirs ignore_files e1 e2 :
  reordered e1 e2 →
  keep ignore_dirs ignore_files e1 = keep ignore_dirs ignore_files e2.
Proof.
  intros (Hn & Hd & Hf)%reordered_kind. unfold keep. by rewrite Hn, Hd, Hf.
Qed.

Lemma distinct_keys_child ignore_dirs ignore_files n children x :
  distinct_keys lower ignore_dirs ignore_files (Dir n true children) →
  x ∈ children → keep ignore_dirs ignore_files x = true →
  distinct_keys lower ignore_dirs ignore_files x.
Proof.
  intros [_ Hall] Hin Hk. induction children as [|y l IH]; [by inversion Hin|].
  destruct Hall as [Hy Hall].
  apply elem_of_cons in Hin as [->|Hin]; [by apply Hy|by apply IH].
Qed.

Lemma for_items_related rec rec' prefix n i l l' :
  Forall2 reordered l l' →
  (∀ x y p b, x ∈ l → reordered x y → rec x p b = rec' y p b) →
  for_items rec prefix n i l = for_items rec' prefix n i l'.
Proof.
  intros Hl. revert i.
  induction Hl as [|x y l l' Hxy _ IH]; intros i Hrec; [done|].
  simpl. destruct (reordered_kind x y Hxy) as (-> & -> & _).
  rewrite (IH (S i)) by (intros; apply Hrec; [by right|done]).
  f_equal. destruct (is_dir y); [|done].
  f_equal. apply Hrec; [by left|done].
Qed.

(** Two listings of one directory whose kept entries have distinct keys
    are sorted into the same list. *)
Lemma listed_perm_eq ignore_dirs ignore_files c c' :
  c ≡ₚ c' →
  NoDup (sort_key lower <$> List.filter (keep ignore_dirs ignore_files) c) →
  listed lower ignore_dirs ignore_files c
  = listed lower ignore_dirs ignore_files c'.
Proof.
  intros Hc Hnd.
  apply (StronglySorted_unique_strong (in_order (sort_key lower) tuple_lt));
    [|apply listed_sorted..|].
  - intros x1 x2 H1 H2 H12 H21.
    assert (sort_key lower x1 = sort_key lower x2) as Hk
      by by apply tuple_lt_total.
    rewrite listed_perm in H1.
    rewrite listed_perm, <- (filter_perm _ c c' Hc) in H2.
    apply list_elem_of_lookup in H1 as [i1 H1], H2 as [i2 H2].
    assert (i1 = i2) as ->; [|congruence].
    eapply NoDup_lookup; [exact Hnd|..].
    + by rewrite list_lookup_fmap, H1.
    + by rewrite list_lookup_fmap, H2, Hk.
  - by rewrite !listed_perm, (filter_perm _ c c').
Qed.

(** X1.  When no two kept entries of a directory share a sort key, the printed
    lines, and with them the report, do not depend on the order in which
    the directories are enumerated. *)
Theorem output_independent_of_enumeration (a : args) e1 e2 :
  reordered e1 e2 →
  distinct_keys lower (final_ignore_dirs a) (final_ignore_files a) e1 →
  (∀ prefix b,
     generate_tree lower e1 (final_ignore_dirs a) (final_ignore_files a)
       prefix b
     = generate_tree lower e2 (final_ignore_dirs a) (final_ignore_files a)
         prefix b)
  ∧ report lower a e1 = report lower a e2.
Proof.
  set (ignore_dirs := final_ignore_dirs a).
  set (ignore_files := final_ignore_files a).
  intros Hr Hd.
  assert (∀ prefix b,
            generate_tree lower e1 ignore_dirs ignore_files prefix b
            = generate_tree lower e2 ignore_dirs ignore_files prefix b) as H.
  { revert e2 Hr Hd.
    induction e1 as [n|n|n r c1 IH] using entry_tree_ind;
      intros e2 Hr Hd prefix b.
    - by destruct e2.
    - by destruct e2.
    - apply reordered_dir in Hr as (c2 & c & -> & Hc & Hf).
      destruct r; [|by rewrite !generate_tree_denied].
      pose proof (Forall2_filter reordered (keep ignore_dirs ignore_files)
                    (reordered_keep ignore_dirs ignore_files) c1 c Hf) as Hk.
      rewrite !generate_tree_readable. cbn zeta.
      rewrite <- (listed_perm_eq ignore_dirs ignore_files c c2 Hc).
      2:{ rewrite <- (Forall2_key reordered (sort_key lower)
                        reordered_sort_key _ _ Hk).
          apply Hd. }
      pose proof (Forall2_sort_by reordered (sort_key lower) tuple_lt
                    reordered_sort_key _ _ Hk) as Hs.
      fold (listed lower ignore_dirs ignore_files c1) in Hs.
      fold (listed lower ignore_dirs ignore_files c) in Hs.
      rewrite <- (Forall2_length _ _ _ Hs).
      apply for_items_related; [done|].
      intros x y p b' [Hx Hkx]%elem_of_listed Hxy.
      rewrite Forall_forall in IH. apply IH; [done..|].
      by eapply distinct_keys_child. }
  split; [done|]. unfold report.
  destruct (reordered_kind e1 e2 Hr) as (-> & _). by rewrite H.
Qed.

(** X2.  The sort is stable: the entries of one sort key stand in the listing in
    the order in which the directory is enumerated. *)
Theorem listed_stable ignore_dirs ignore_files children (k : bool * string) :
  List.filter (λ x, bool_decide (sort_key lower x = k))
    (listed lower ignore_dirs ignore_files children)
  = List.filter (λ x, bool_decide (sort_key lower x = k))
      (List.filter (keep ignore_dirs ignore_files) children).
Proof.
  apply sort_by_stable.
  intros x y Hx%bool_decide_eq_true Hy%bool_decide_eq_true.
  rewrite Hx, Hy. apply tuple_lt_irrefl.
Qed.

(** * Further properties of the walk and of the run *)

(** ** The prefix *)

Lemma string_app_assoc (a b c : string) : (a +:+ b) +:+ c = a +:+ b +:+ c.
Proof.
  induction a as [|x a IH]; [done|].
  change (String x ((a +:+ b) +:+ c) = String x (a +:+ b +:+ c)).
  by rewrite IH.
Qed.

Lemma for_items_prefix rec rec' p q n i items :
  (∀ item pre b, item ∈ items → is_dir item = true →
     rec item (p +:+ pre) b = String.append p <$> rec' item pre b) →
  for_items rec (p +:+ q) n i items
  = String.append p <$> for_items rec' q n i items.
Proof.
  revert i. induction items as [|item rest IH]; intros i Hrec; [done|].
  simpl. rewrite fmap_app, IH by (intros; apply Hrec; [by right|done]).
  f_equal. rewrite !string_app_assoc.
  destruct (is_dir item) eqn:Hd; [|done].
  rewrite fmap_cons. f_equal. apply Hrec; [by left|done].
Qed.

(** X3.  The lines of a walk made with the prefix [p +:+ q] are the lines of
    the walk made with the prefix [q], each with [p] put in front: a subtree
    is rendered the same way wherever it stands, up to its indentation, and
    every line of a walk starts with the prefix of the walk. *)
Theorem generate_tree_prefix dir_path ignore_dirs ignore_files p q b :
  generate_tree lower dir_path ignore_dirs ignore_files (p +:+ q) b
  = String.append p
      <$> generate_tree lower dir_path ignore_dirs ignore_files q b.
Proof.
  revert q b.
  induction dir_path as [n|n|n r children IH] using entry_tree_ind;
    intros q b; [done..|].
  destruct r.
  - rewrite !generate_tree_readable. cbn zeta. apply for_items_prefix.
    intros item pre b' [Hin _]%elem_of_listed _.
    rewrite Forall_forall in IH. by apply IH.
  - rewrite !generate_tree_denied. simpl. by rewrite string_app_assoc.
Qed.

(** X4.  The argument [is_last] has no effect on what a call prints: the
    body of [generate_tree] passes it on and never reads it. *)
Theorem generate_tree_is_last_unused dir_path ignore_dirs ignore_files prefix
    b b' :
  generate_tree lower dir_path ignore_dirs ignore_files prefix b
  = generate_tree lower dir_path ignore_dirs ignore_files prefix b'.
Proof.
  destruct dir_path as [n|n|n [] children]; [done..| |].
  - by rewrite !generate_tree_readable.
  - by rewrite !generate_tree_denied.
Qed.

(** ** The empty body *)

(** X5.  A directory that can be listed has an empty tree body exactly when
    none of its entries passes the filter: when it is empty, or holds only
    ignored directories, ignored files and entries that are neither. *)
Theorem generate_tree_empty nm children ignore_dirs ignore_files prefix b :
  generate_tree lower (Dir nm true children) ignore_dirs ignore_files prefix b
  = []
  ↔ ∀ c, c ∈ children → keep ignore_dirs ignore_files c = false.
Proof.
  rewrite generate_tree_readable. cbn zeta. split.
  - intros Hnil c Hin. destruct (keep ignore_dirs ignore_files c) eqn:Hk; [|done].
    assert (c ∈ listed lower ignore_dirs ignore_files children) as Hl
      by by apply elem_of_listed.
    destruct (listed lower ignore_dirs ignore_files children) as [|x l];
      [by inversion Hl|].
    simpl in Hnil. by destruct (is_dir x).
  - intros Hnone.
    destruct (listed lower ignore_dirs ignore_files children) as [|x l] eqn:Hl;
      [done|].
    assert (x ∈ listed lower ignore_dirs ignore_files children) as Hx
      by (rewrite Hl; by left).
    apply elem_of_listed in Hx as [Hin Hk]. by rewrite Hnone in Hk.
Qed.

(** ** The ignore options *)

(** X6.  The names given with [--ignore-dir] and [--ignore-file] count as
    sets, together with the defaults: two command lines that name the same
    start path and output file, and whose ignore names are the same up to
    order, repetition and names that are defaults anyway, give the same
    run. *)
Theorem ignore_options_as_sets (fs : filesystem) (a a' : args) :
  start_path a = start_path a' →
  output_file a = output_file a' →
  (∀ x, x ∈ DEFAULT_IGNORE_DIRS ∨ x ∈ ignore_dir a
        ↔ x ∈ DEFAULT_IGNORE_DIRS ∨ x ∈ ignore_dir a') →
  (∀ x, x ∈ DEFAULT_IGNORE_FILES ∨ x ∈ ignore_file a
        ↔ x ∈ DEFAULT_IGNORE_FILES ∨ x ∈ ignore_file a') →
  main lower fs a = main lower fs a'.
Proof.
  intros Hs Ho Hd Hf.
  assert (final_ignore_dirs a = final_ignore_dirs a') as Ed.
  { unfold final_ignore_dirs. apply set_eq. intros x.
    rewrite !elem_of_union, !elem_of_list_to_set. apply Hd. }
  assert (final_ignore_files a = final_ignore_files a') as Ef.
  { unfold final_ignore_files. apply set_eq. intros x.
    rewrite !elem_of_union, !elem_of_list_to_set. apply Hf. }
  unfold main, report. by rewrite Hs, Ho, Ed, Ef.
Qed.

(** ** More ignored names, fewer lines *)

Lemma keep_antitone ignore_dirs ignore_files ignore_dirs' ignore_files' item :
  ignore_dirs ⊆ ignore_dirs' → ignore_files ⊆ ignore_files' →
  keep ignore_dirs' ignore_files' item = true →
  keep ignore_dirs ignore_files item = true.
Proof.
  intros Hd Hf. rewrite !keep_spec.
  intros [[H Hn]|[H Hn]]; [left|right]; (split; [done|]);
    intros Hin; apply Hn; [by apply Hd|by apply Hf].
Qed.

Lemma list_sum_fmap_le {A} (f g : A → nat) (l : list A) :
  (∀ x, x ∈ l → (f x ≤ g x)%nat) →
  (list_sum (f <$> l) ≤ list_sum (g <$> l))%nat.
Proof.
  induction l as [|x l IH]; intros H; [done|].
  rewrite !fmap_cons, !list_sum_cons.
  apply Nat.add_le_mono; [apply H; by left|].
  apply IH. intros; apply H. by right.
Qed.

Lemma reached_mono ignore_dirs ignore_files ignore_dirs' ignore_files' e :
  ignore_dirs ⊆ ignore_dirs' → ignore_files ⊆ ignore_files' →
  (entries_reached ignore_dirs' ignore_files' e
   ≤ entries_reached ignore_dirs ignore_files e)%nat
  ∧ (denied_reached ignore_dirs' ignore_files' e
     ≤ denied_reached ignore_dirs ignore_files e)%nat.
Proof.
  intros Hd Hf.
  induction e as [n|n|n r children IH] using entry_tree_ind; [done..|].
  destruct r; [|done]. cbn [entries_reached denied_reached].
  rewrite Forall_forall in IH. split.
  - apply list_sum_fmap_le. intros c Hc.
    destruct (keep ignore_dirs' ignore_files' c) eqn:Hk; [|lia].
    rewrite (keep_antitone _ _ _ _ c Hd Hf Hk).
    destruct (IH c Hc). lia.
  - apply list_sum_fmap_le. intros c Hc.
    destruct (keep ignore_dirs' ignore_files' c) eqn:Hk; [|lia].
    rewrite (keep_antitone _ _ _ _ c Hd Hf Hk).
    by destruct (IH c Hc).
Qed.

Lemma length_generate_tree_reached dir_path ignore_dirs ignore_files prefix b :
  length (generate_tree lower dir_path ignore_dirs ignore_files prefix b)
  = entries_reached ignore_dirs ignore_files dir_path
    + denied_reached ignore_dirs ignore_files dir_path.
Proof.
  rewrite <- (generate_tree_walk []), length_fmap, <- list_sum_ones.
  rewrite (list_sum_fmap_ext _ (weight 1 1)); [|intros v _; by destruct v].
  rewrite walk_weight. lia.
Qed.

(** X7.  Ignoring more names never makes the tree body longer: with larger
    ignore sets the walk reaches no more entries and no more unreadable
    directories, and prints no more lines. *)
Theorem more_ignored_fewer_lines dir_path ignore_dirs ignore_files
    ignore_dirs' ignore_files' prefix b :
  ignore_dirs ⊆ ignore_dirs' → ignore_files ⊆ ignore_files' →
  (entries_reached ignore_dirs' ignore_files' dir_path
   ≤ entries_reached ignore_dirs ignore_files dir_path)%nat
  ∧ (denied_reached ignore_dirs' ignore_files' dir_path
     ≤ denied_reached ignore_dirs ignore_files dir_path)%nat
  ∧ (length
       (generate_tree lower dir_path ignore_dirs' ignore_files' prefix b)
     ≤ length
         (generate_tree lower dir_path ignore_dirs ignore_files prefix b))%nat.
Proof.
  intros Hd Hf.
  destruct (reached_mono _ _ _ _ dir_path Hd Hf) as [He Hm].
  split_and!; [done..|]. rewrite !length_generate_tree_reached. lia.
Qed.

(** ** Only what passes the filter matters *)

Lemma without_ignored_is_dir ignore_dirs ignore_files e :
  is_dir (without_ignored ignore_dirs ignore_files e) = is_dir e.
Proof. by destruct e as [| |? []]. Qed.

Lemma without_ignored_name ignore_dirs ignore_files e :
  name (without_ignored ignore_dirs ignore_files e) = name e.
Proof. by destruct e as [| |? []]. Qed.

Lemma without_ignored_is_file ignore_dirs ignore_files e :
  is_file (without_ignored ignore_dirs ignore_files e) = is_file e.
Proof. by destruct e as [| |? []]. Qed.

Lemma filter_filter {A} (P : A → bool) (l : list A) :
  List.filter P (List.filter P l) = List.filter P l.
Proof.
  induction l as [|x l IH]; [done|]. simpl.
  destruct (P x) eqn:Hx; [|done]. simpl. by rewrite Hx, IH.
Qed.

Lemma listed_without_ignored ignore_dirs ignore_files children :
  listed lower ignore_dirs ignore_files
    (List.filter (keep ignore_dirs ignore_files)
       (List.map (without_ignored ignore_dirs ignore_files) children))
  = List.map (without_ignored ignore_dirs ignore_files)
      (listed lower ignore_dirs ignore_files children).
Proof.
  unfold listed. rewrite filter_filter.
  rewrite (filter_map_commute _ (keep ignore_dirs ignore_files)).
  - apply sort_by_map. intros x. unfold sort_key.
    by rewrite without_ignored_is_file, without_ignored_name.
  - intros x. unfold keep.
    by rewrite without_ignored_is_dir, without_ignored_is_file,
      without_ignored_name.
Qed.

(** X8.  The printed lines are those of the tree from which everything the
    filter rejects has been removed, in every listed directory: ignored
    directories with all they hold, ignored files, and entries that are
    neither directories nor files have no influence on the output. *)
Theorem generate_tree_without_ignored dir_path ignore_dirs ignore_files
    prefix b :
  generate_tree lower (without_ignored ignore_dirs ignore_files dir_path)
    ignore_dirs ignore_files prefix b
  = generate_tree lower dir_path ignore_dirs ignore_files prefix b
  ∧ (∀ n children,
       dir_path = Dir n true children →
       ∃ children',
         without_ignored ignore_dirs ignore_files dir_path
         = Dir n true children'
         ∧ Forall (λ c, keep ignore_dirs ignore_files c = true) children').
Proof.
  split.
  - revert prefix b.
    induction dir_path as [n|n|n r children IH] using entry_tree_ind;
      intros prefix b; [done..|].
    destruct r; [|done].
    cbn [without_ignored]. rewrite !generate_tree_readable. cbn zeta.
    rewrite listed_without_ignored, length_map.
    apply for_items_map;
      [apply without_ignored_is_dir|apply without_ignored_name|].
    intros x p b' [Hin _]%elem_of_listed _.
    rewrite Forall_forall in IH. by apply IH.
  - intros n children ->. eexists. split; [done|].
    apply Forall_forall. intros c Hc.
    apply list_elem_of_In, filter_In in Hc. by destruct Hc.
Qed.

(** ** Indentation *)

Lemma string_app_nil_r (a : string) : a +:+ "" = a.
Proof.
  induction a as [|x a IH]; [done|].
  change (String x (a +:+ "") = String x a). by rewrite IH.
Qed.

(** A line of the walk of the directory at [path], made with [prefix]: its
    prefix is [prefix] followed by one indentation token for every
    directory between [path] and the place of the line. *)
Definition indented (path : list string) (prefix : string) (v : visit)
  : Prop :=
  ∃ tokens,
    visit_prefix v = prefix +:+ indent tokens
    ∧ length (visit_dir v) = length path + length tokens
    ∧ Forall (λ t, t = "    " ∨ t = "│   ") tokens.

Lemma indented_below path d prefix b v :
  indented (path ++ [d]) (prefix +:+ (if b : bool then space else "│   ")) v →
  indented path prefix v.
Proof.
  intros (tokens & Hp & Hl & Ht).
  exists ((if b then space else "│   ") :: tokens). split_and!.
  - rewrite Hp. simpl. by rewrite string_app_assoc.
  - rewrite Hl, length_app. simpl. lia.
  - constructor; [|done]. destruct b; [by left|by right].
Qed.

Lemma walk_items_Forall_at (Q : visit → Prop) rec path prefix n i items :
  (∀ item b, item ∈ items → Q (Visited prefix b path item)) →
  (∀ item b, item ∈ items → is_dir item = true →
     Forall Q
       (rec (path ++ [name item]) item
          (prefix +:+ (if b : bool then space else "│   ")) b)) →
  Forall Q (walk_items rec path prefix n i items).
Proof.
  revert i. induction items as [|item rest IH]; intros i Hv Hrec; simpl.
  - constructor.
  - constructor; [apply Hv; by left|].
    apply Forall_app. split.
    + destruct (is_dir item) eqn:Hd; [|constructor].
      apply Hrec; [by left|done].
    + apply IH; intros; [apply Hv|apply Hrec]; try done; by right.
Qed.

(** X9.  The prefix of every line is the prefix of the walk followed by as
    many indentation tokens, each four spaces or the bar and three spaces,
    as there are directories between the root of the walk and the place of
    the line: the indentation of an entry is its depth, and the marker of
    an unreadable directory is indented as the entries of that directory
    would be. *)
Theorem indentation_is_depth dir_path ignore_dirs ignore_files path prefix b
    v :
  v ∈ walk lower path dir_path ignore_dirs ignore_files prefix b →
  ∃ tokens,
    visit_prefix v = prefix +:+ indent tokens
    ∧ length (visit_dir v) = length path + length tokens
    ∧ Forall (λ t, t = "    " ∨ t = "│   ") tokens.
Proof.
  revert v. apply Forall_forall. revert path prefix b.
  induction dir_path as [n|n|n r children IH] using entry_tree_ind;
    intros path prefix b.
  - simp walk. constructor.
  - simp walk. constructor.
  - destruct r.
    + rewrite walk_readable. cbn zeta.
      apply (walk_items_Forall_at (indented path prefix)).
      * intros item b' _. exists []. simpl.
        by rewrite string_app_nil_r, Nat.add_0_r.
      * intros item b' [Hin _]%elem_of_listed _.
        rewrite Forall_forall in IH.
        eapply Forall_impl; [apply (IH item Hin)|].
        intros v. apply indented_below.
    + rewrite walk_denied. constructor; [|constructor].
      exists []. simpl. by rewrite string_app_nil_r, Nat.add_0_r.
Qed.

(** ** No entry twice *)

Lemma visited_paths_app vs1 vs2 :
  visited_paths (vs1 ++ vs2) = visited_paths vs1 ++ visited_paths vs2.
Proof. apply omap_app. Qed.

Lemma elem_of_visited_paths q vs :
  q ∈ visited_paths vs
  ↔ ∃ prefix b parent item,
      Visited prefix b parent item ∈ vs ∧ q = parent ++ [name item].
Proof.
  unfold visited_paths. rewrite list_elem_of_omap. split.
  - intros ([pre b parent item|pre dir] & Hin & Hq); [|done].
    injection Hq as <-. by exists pre, b, parent, item.
  - intros (pre & b & parent & item & Hin & ->).
    by exists (Visited pre b parent item).
Qed.

(** The paths a walk visits lie strictly below its directory. *)
Lemma visited_paths_below dir_path ignore_dirs ignore_files path prefix b q :
  q ∈ visited_paths
        (walk lower path dir_path ignore_dirs ignore_files prefix b) →
  ∃ d rel, q = path ++ d :: rel.
Proof.
  intros (pre & b' & parent & item & Hin & ->)%elem_of_visited_paths.
  pose proof (walk_visits dir_path ignore_dirs ignore_files path prefix b)
    as H.
  rewrite Forall_forall in H. destruct (H _ Hin) as [(rel & -> & _) _].
  rewrite <- app_assoc. destruct rel as [|d rel]; simpl; eauto.
Qed.

Lemma walk_items_paths rec path prefix n i items :
  NoDup (name <$> items) →
  (∀ item pre b, item ∈ items → is_dir item = true →
     NoDup (visited_paths (rec (path ++ [name item]) item pre b))) →
  (∀ item pre b q, item ∈ items → is_dir item = true →
     q ∈ visited_paths (rec (path ++ [name item]) item pre b) →
     ∃ d rel, q = (path ++ [name item]) ++ d :: rel) →
  NoDup (visited_paths (walk_items rec path prefix n i items))
  ∧ ∀ q, q ∈ visited_paths (walk_items rec path prefix n i items) →
         ∃ item rel, item ∈ items ∧ q = path ++ name item :: rel.
Proof.
  revert i. induction items as [|item rest IH]; intros i Hnd Hrec Hbelow.
  { split; [constructor|]. intros q Hq. by inversion Hq. }
  rewrite fmap_cons in Hnd. apply NoDup_cons in Hnd as [Hfresh Hnd].
  destruct (IH (S i) Hnd) as [IHnd IHin].
  { intros; apply Hrec; [by right|done]. }
  { intros ???? Hin; apply Hbelow. by right. }
  clear IH. cbn [walk_items].
  set (sub := if is_dir item then _ else []).
  assert (NoDup (visited_paths sub)) as Hsub_nd.
  { unfold sub. destruct (is_dir item) eqn:Hd; [|constructor].
    apply Hrec; [by left|done]. }
  assert (∀ q, q ∈ visited_paths sub →
               ∃ d rel, q = (path ++ [name item]) ++ d :: rel) as Hsub_in.
  { unfold sub. destruct (is_dir item) eqn:Hd.
    - intros q. apply Hbelow; [by left|done].
    - intros q Hq. by inversion Hq. }
  assert (∀ q rel, q ∈ visited_paths
                         (walk_items rec path prefix n (S i) rest) →
                   q ≠ path ++ name item :: rel) as Hrest.
  { intros q rel (item' & rel' & Hin' & ->)%IHin
      [= Hn _]%(inj (app path)).
    apply Hfresh. rewrite <- Hn. by apply list_elem_of_fmap_2. }
  change (Visited ?a ?b ?c ?d :: ?l) with ([Visited a b c d] ++ l).
  rewrite !visited_paths_app.
  change (visited_paths [Visited ?a ?b path item]) with [path ++ [name item]].
  split.
  - simpl. apply NoDup_cons. split.
    + intros [Hq|Hq]%elem_of_app.
      * apply Hsub_in in Hq as (d & rel & Hq).
        apply (f_equal length) in Hq. rewrite !length_app in Hq.
        simpl in Hq. lia.
      * by eapply Hrest.
    + apply NoDup_app. split_and!; [done| |done].
      intros q (d & rel & ->)%Hsub_in Hq.
      eapply Hrest; [exact Hq|]. by rewrite <- app_assoc.
  - intros q [Hq|[Hq|Hq]%elem_of_app]%elem_of_cons.
    + exists item, []. split; [by left|done].
    + apply Hsub_in in Hq as (d & rel & ->).
      exists item, (d :: rel). split; [by left|]. by rewrite <- app_assoc.
    + apply IHin in Hq as (item' & rel & Hin' & ->).
      exists item', rel. split; [by right|done].
Qed.

Lemma distinct_names_child ignore_dirs ignore_files n children x :
  distinct_names ignore_dirs ignore_files (Dir n true children) →
  x ∈ children → keep ignore_dirs ignore_files x = true →
  distinct_names ignore_dirs ignore_files x.
Proof.
  intros [_ Hall] Hin Hk. induction children as [|y l IH]; [by inversion Hin|].
  destruct Hall as [Hy Hall].
  apply elem_of_cons in Hin as [->|Hin]; [by apply Hy|by apply IH].
Qed.

(** X10.  When the entries of every directory have distinct names, as they
    have in a file system, no entry is visited twice: the paths of the
    entries the walk prints a line for are pairwise distinct. *)
Theorem no_entry_twice dir_path ignore_dirs ignore_files path prefix b :
  distinct_names ignore_dirs ignore_files dir_path →
  NoDup
    (visited_paths
       (walk lower path dir_path ignore_dirs ignore_files prefix b)).
Proof.
  revert path prefix b.
  induction dir_path as [n|n|n r children IH] using entry_tree_ind;
    intros path prefix b Hd.
  - simp walk. constructor.
  - simp walk. constructor.
  - destruct r; [|rewrite walk_denied; constructor].
    rewrite walk_readable. cbn zeta. apply walk_items_paths.
    + rewrite listed_perm. apply Hd.
    + intros item pre b' [Hin Hk]%elem_of_listed _.
      rewrite Forall_forall in IH. apply IH; [done|].
      by eapply distinct_names_child.
    + intros item pre b' q _ _. apply visited_paths_below.
Qed.

End WalkFacts.


(** * The program on concrete inputs *)

(** The scenario of the specification: [src/] with [main.py], and
    [README.md]; [.git] is left out by default. *)
Example generate_tree_sample :
  generate_tree ascii_lower sample DEFAULT_IGNORE_DIRS DEFAULT_IGNORE_FILES
    "" true
  = [ "├── 📂 src/"; "│   └── 📄 main.py"; "└── 📄 README.md" ].
Proof. vm_compute. reflexivity. Qed.

(** Sibling order: directories first, names compared without case. *)
Example generate_tree_mixed_case :
  generate_tree ascii_lower mixed_case DEFAULT_IGNORE_DIRS
    DEFAULT_IGNORE_FILES "" true
  = [ "├── 📂 A/"; "├── 📂 B/"; "├── 📄 a.txt"; "└── 📄 b.txt" ].
Proof. vm_compute. reflexivity. Qed.

Example generate_tree_locked_subdir :
  generate_tree ascii_lower locked_subdir DEFAULT_IGNORE_DIRS
    DEFAULT_IGNORE_FILES "" true
  = [ "├── 📂 vault/"; "│   ├── ⚠️  [Permission Denied]"; "└── 📄 notes.txt" ].
Proof. vm_compute. reflexivity. Qed.

Lemma entry_line_format_witness :
  generate_tree ascii_lower sample DEFAULT_IGNORE_DIRS DEFAULT_IGNORE_FILES
    "" true
  = [ "├── 📂 src/"; "│   └── 📄 main.py" ] ++ [ "└── 📄 README.md" ] ++ [].
Proof.
  assert (listed ascii_lower DEFAULT_IGNORE_DIRS DEFAULT_IGNORE_FILES
            [ File "README.md"; Dir ".git" true [File "HEAD"];
              Dir "src" true [File "main.py"] ]
          = [Dir "src" true [File "main.py"]] ++ File "README.md" :: [])
    as H by (vm_compute; reflexivity).
  eapply eq_trans.
  - exact (proj1 (entry_line_format ascii_lower "proj" _ _ _ "" true _ _ _ H)).
  - vm_compute. reflexivity.
Defined.

Lemma invalid_root_reports_error_witness :
  main ascii_lower (fs_with "proj" sample) (default_args "missing")
  = {| stdout := [ "❌ Error: The path 'missing' is not a valid directory." ];
       written := [];
       raised := false |}.
Proof.
  apply (invalid_root_reports_error ascii_lower (fs_with "proj" sample)
           (default_args "missing")).
  left. reflexivity.
Defined.

(** C5 fails at a root that is a directory and cannot be read: the output
    file is written and the run reports success. *)
Lemma unreadable_root_is_rendered :
  lookup (fs_with "vault" locked_root) "vault"
  = Some (Dir "vault" false [File "key"])
  ∧ main ascii_lower (fs_with "vault" locked_root) (default_args "vault")
    = {| stdout :=
           [ "✅ Folder structure successfully exported to 'folder_structure.txt'" ];
         written :=
           [ ("folder_structure.txt",
              file_text [ "📁 vault/" +:+ newline;
                          "├── ⚠️  [Permission Denied]" ]) ];
         raised := false |}.
Proof. split; vm_compute; reflexivity. Qed.

Lemma root_must_be_directory_witness :
  stdout (main ascii_lower (fs_with "proj" sample) (default_args "missing"))
  = [ "❌ Error: The path 'missing' is not a valid directory." ]
  ∧ written (main ascii_lower (fs_with "vault" locked_root)
               (default_args "vault"))
    = [ ("folder_structure.txt",
         file_text [ "📁 vault/" +:+ newline;
                     "├── ⚠️  [Permission Denied]" ]) ].
Proof.
  split.
  - apply (proj1 (root_must_be_directory ascii_lower (fs_with "proj" sample)
                    (default_args "missing"))).
    left. reflexivity.
  - rewrite (proj2 (root_must_be_directory ascii_lower
                      (fs_with "vault" locked_root) (default_args "vault"))
               "vault" [File "key"] eq_refl eq_refl).
    reflexivity.
Defined.

Lemma unreadable_directory_is_local_witness :
  stdout (main ascii_lower (fs_with "proj" locked_subdir)
            (default_args "proj"))
  = [ "✅ Folder structure successfully exported to 'folder_structure.txt'" ].
Proof.
  rewrite (proj1 (unreadable_directory_is_local ascii_lower
                    (fs_with "proj" locked_subdir) (default_args "proj")
                    "proj" true _ eq_refl eq_refl)).
  reflexivity.
Defined.

(** C7 fails where a directory below the root cannot be read: the root has
    one entry, that directory, and the body has two lines. *)
Lemma unreadable_subdir_two_lines :
  generate_tree ascii_lower one_locked_subdir DEFAULT_IGNORE_DIRS
    DEFAULT_IGNORE_FILES "" true
  = [ "└── 📂 vault/"; "    ├── ⚠️  [Permission Denied]" ]
  ∧ entries_reached DEFAULT_IGNORE_DIRS DEFAULT_IGNORE_FILES one_locked_subdir
    = 1
  ∧ denied_reached DEFAULT_IGNORE_DIRS DEFAULT_IGNORE_FILES one_locked_subdir
    = 1.
Proof. split_and!; vm_compute; reflexivity. Qed.

(** C8.  [Makefile] and [makefile] have the same sort key, and the sort is
    stable: the report follows the order in which the directory is
    enumerated. *)
Theorem enumeration_order_reaches_output :
  [File "Makefile"; File "makefile"] ≡ₚ [File "makefile"; File "Makefile"]
  ∧ sort_key ascii_lower (File "Makefile")
    = sort_key ascii_lower (File "makefile")
  ∧ report ascii_lower (default_args "proj") makefiles_1
    = [ "📁 proj/" +:+ newline; "├── 📄 Makefile"; "└── 📄 makefile" ]
  ∧ report ascii_lower (default_args "proj") makefiles_2
    = [ "📁 proj/" +:+ newline; "├── 📄 makefile"; "└── 📄 Makefile" ]
  ∧ written (main ascii_lower (fs_with "proj" makefiles_1)
               (default_args "proj"))
    ≠ written (main ascii_lower (fs_with "proj" makefiles_2)
                 (default_args "proj")).
Proof.
  split_and!; [apply Permutation_swap|vm_compute; reflexivity..|].
  vm_compute. intros H. discriminate H.
Qed.

Lemma output_independent_of_enumeration_witness :
  report ascii_lower (default_args "proj") sample
  = report ascii_lower (default_args "proj")
      (Dir "proj" true
         [ Dir "src" true [File "main.py"]; Dir ".git" true [File "HEAD"];
           File "README.md" ]).
Proof.
  apply (output_independent_of_enumeration ascii_lower (default_args "proj")
           sample).
  - simpl. split_and!; [done..|].
    exists [ File "README.md"; Dir ".git" true [File "HEAD"];
             Dir "src" true [File "main.py"] ].
    split.
    + apply (Permutation_rev
               [ File "README.md"; Dir ".git" true [File "HEAD"];
                 Dir "src" true [File "main.py"] ]).
    + split_and!; try done; eexists; (split; [reflexivity|done]).
  - simpl. split_and!; try done; try intros _; split_and?; try done;
      apply (bool_decide_unpack _); vm_compute; reflexivity.
Defined.

Lemma ignore_options_as_sets_witness :
  main ascii_lower (fs_with "proj" sample)
    {| start_path := "proj"; output_file := "tree.txt";
       ignore_dir := ["src"; ".git"; "src"]; ignore_file := [] |}
  = main ascii_lower (fs_with "proj" sample)
      {| start_path := "proj"; output_file := "tree.txt";
         ignore_dir := ["src"]; ignore_file := [] |}.
Proof.
  apply (ignore_options_as_sets ascii_lower); simpl; [done..| |done].
  intros x. unfold DEFAULT_IGNORE_DIRS.
  rewrite !elem_of_cons, !elem_of_union, !elem_of_singleton. tauto.
Defined.

Lemma more_ignored_fewer_lines_witness :
  (length
     (generate_tree ascii_lower sample (DEFAULT_IGNORE_DIRS ∪ {["src"]})
        DEFAULT_IGNORE_FILES "" true)
   ≤ length
       (generate_tree ascii_lower sample DEFAULT_IGNORE_DIRS
          DEFAULT_IGNORE_FILES "" true))%nat.
Proof.
  apply (more_ignored_fewer_lines ascii_lower sample DEFAULT_IGNORE_DIRS
           DEFAULT_IGNORE_FILES (DEFAULT_IGNORE_DIRS ∪ {["src"]})
           DEFAULT_IGNORE_FILES "" true).
  - apply union_subseteq_l.
  - done.
Defined.

Lemma indentation_is_depth_witness :
  ∃ tokens,
    "│   " = "" +:+ indent tokens
    ∧ length ["src"] = length (@nil string) + length tokens
    ∧ Forall (λ t, t = "    " ∨ t = "│   ") tokens.
Proof.
  apply (indentation_is_depth ascii_lower sample DEFAULT_IGNORE_DIRS
           DEFAULT_IGNORE_FILES [] "" true
           (Visited "│   " true ["src"] (File "main.py"))).
  vm_compute. apply list_elem_of_further, list_elem_of_here.
Defined.

Lemma no_entry_twice_witness :
  NoDup
    (visited_paths
       (walk ascii_lower [] sample DEFAULT_IGNORE_DIRS DEFAULT_IGNORE_FILES
          "" true)).
Proof.
  apply (no_entry_twice ascii_lower sample).
  simpl. split_and!; try done; try intros _; split_and?; try done;
    apply (bool_decide_unpack _); vm_compute; reflexivity.
Defined.
